(** * Catalogue text pipeline: cleaner, title-anchored assembler, quality control

    A shallow embedding of the deterministic PDF text pipeline
    (extractor.py, cleaner.py, assembler.py, qc.py, main.py) and the
    properties of it that are stated in the specification.

    Python strings are sequences of Unicode code points; they are modelled
    as lists of code points.  Regular expressions are modelled by a small
    backtracking matcher whose search order is the one of Python's [re]
    (leftmost start, alternatives left to right, greedy before shorter,
    lazy before longer). *)

From Stdlib Require Import List NArith ZArith Bool Lia String Ascii.
From Stdlib Require Import Sorting.Mergesort Sorting.Permutation Sorting.Sorted Orders.
Import ListNotations.

Set Implicit Arguments.

Abbreviation length := List.length.

(** ** Python strings *)

Definition char := N.
Definition str := list char.

Module Utf8.
(** String literals of this file are UTF-8; [decode] turns their bytes
    into code points.  It is only used to write literals. *)
Open Scope N_scope.

Fixpoint decode (bs : list N) : str :=
  match bs with
  | [] => []
  | b :: r1 =>
      if b <? 128 then b :: decode r1
      else match r1 with
           | [] => []
           | b1 :: r2 =>
               if b <? 224 then ((b - 192) * 64 + (b1 - 128)) :: decode r2
               else match r2 with
                    | [] => []
                    | b2 :: r3 =>
                        if b <? 240
                        then ((b - 224) * 4096 + (b1 - 128) * 64 + (b2 - 128)) :: decode r3
                        else match r3 with
                             | [] => []
                             | b3 :: r4 =>
                                 ((b - 240) * 262144 + (b1 - 128) * 4096
                                  + (b2 - 128) * 64 + (b3 - 128)) :: decode r4
                             end
                    end
           end
  end.

Definition of_string (s : string) : str :=
  decode (map N_of_ascii (list_ascii_of_string s)).
End Utf8.

Notation "'u' s" := (Utf8.of_string s%string) (at level 1, s at level 0, only parsing).

Definition chr (s : string) : char :=
  match Utf8.of_string s with c :: _ => c | [] => 0%N end.

Section PyStr.
Open Scope N_scope.

Definition NL : char := 10.
Definition SP : char := 32.
Definition TAB : char := 9.

(** [str.isspace] on one character, which is also the class [\s] of [re]
    on [str] patterns. *)
Definition isspace (c : char) : bool :=
  ((9 <=? c) && (c <=? 13)) || ((28 <=? c) && (c <=? 32))
  || (c =? 133) || (c =? 160) || (c =? 5760)
  || ((8192 <=? c) && (c <=? 8202))
  || (c =? 8232) || (c =? 8233) || (c =? 8239) || (c =? 8287) || (c =? 12288).

Fixpoint str_eqb (a b : str) : bool :=
  match a, b with
  | [], [] => true
  | x :: a', y :: b' => (x =? y) && str_eqb a' b'
  | _, _ => false
  end.

(** [s.lstrip(chars)], [s.lstrip()] *)
Fixpoint lstrip_by (p : char -> bool) (s : str) : str :=
  match s with
  | c :: s' => if p c then lstrip_by p s' else s
  | [] => []
  end.

Definition lstrip (s : str) : str := lstrip_by isspace s.
Definition rstrip (s : str) : str := rev (lstrip (rev s)).
Definition strip (s : str) : str := rstrip (lstrip s).

(** [s.split('\n')] *)
Fixpoint split_nl (s : str) : list str :=
  match s with
  | [] => [[]]
  | c :: s' =>
      if c =? NL then [] :: split_nl s'
      else match split_nl s' with
           | l :: ls => (c :: l) :: ls
           | [] => [[c]]
           end
  end.

(** [sep.join(parts)] *)
Fixpoint join (sep : str) (parts : list str) : str :=
  match parts with
  | [] => []
  | [x] => x
  | x :: rest => x ++ sep ++ join sep rest
  end.

(** [s.startswith(p)], [s.endswith(p)], [p in s] *)
Fixpoint startswith (s p : str) : bool :=
  match p, s with
  | [], _ => true
  | x :: p', y :: s' => (x =? y) && startswith s' p'
  | _ :: _, [] => false
  end.

Definition endswith (s p : str) : bool := startswith (rev s) (rev p).

Fixpoint contains (s p : str) : bool :=
  startswith s p || match s with
                     | [] => false
                     | _ :: s' => contains s' p
                     end.

(** Truthiness of a string and of an optional string ([None] and [''] are
    both false). *)
Definition truthy (s : str) : bool :=
  match s with [] => false | _ :: _ => true end.

Definition truthy_opt (o : option str) : bool :=
  match o with Some s => truthy s | None => false end.
End PyStr.

(** ** The Unicode database

    The character tables of the Python runtime are not part of the
    repository.  The functions that consult them take the tables as an
    interface; [basic_unicode] gives them on ASCII and the Cyrillic block,
    which is the alphabet of the catalogue, and is what concrete runs in
    this file use. *)

Class Unicode := {
  isword : char -> bool;       (* \w *)
  isdecimal : char -> bool;    (* \d *)
  isupper : char -> bool;      (* c.isupper() *)
  isdigit : char -> bool;      (* c.isdigit() *)
  lower : str -> str;          (* s.lower() *)
  ci_lit : char -> char -> bool;           (* re.IGNORECASE: literal p accepts c *)
  ci_range : char -> char -> char -> bool; (* re.IGNORECASE: range lo-hi accepts c *)
  (* the characters below 'A' (controls, space, punctuation, digits) have
     no case: as a literal each accepts itself only *)
  ci_lit_uncased : forall p c, (p < 65)%N -> ci_lit p c = true -> c = p;
  (* a word character is neither the hyphen nor whitespace *)
  isword_hyphen : isword 45%N = false;
  isword_space : forall c, isspace c = true -> isword c = false
}.

Module Basic.
Open Scope N_scope.

Definition between (lo hi c : char) : bool := (lo <=? c) && (c <=? hi).

Definition lower1 (c : char) : char :=
  if between 65 90 c then c + 32            (* A-Z *)
  else if between 1040 1071 c then c + 32   (* А-Я *)
  else if between 1024 1039 c then c + 80   (* Ѐ-Џ, with Ё *)
  else c.

Definition upper1 (c : char) : char :=
  if between 97 122 c then c - 32
  else if between 1072 1103 c then c - 32
  else if between 1104 1119 c then c - 80
  else c.

Definition letter (c : char) : bool :=
  between 65 90 c || between 97 122 c
  || between 1024 1153 c || between 1162 1279 c.

Definition digit (c : char) : bool := between 48 57 c.

Definition upper_letter (c : char) : bool :=
  between 65 90 c || between 1024 1071 c.
End Basic.

Lemma basic_ci_lit_uncased : forall p c : char,
  (p < 65)%N -> N.eqb (Basic.lower1 c) (Basic.lower1 p) = true -> c = p.
Proof.
  intros p c Hp H. apply N.eqb_eq in H. revert H.
  unfold Basic.lower1, Basic.between.
  repeat match goal with
         | |- context [N.leb ?a ?b] => destruct (N.leb_spec a b)
         end; simpl; lia.
Qed.

Lemma basic_isword_space : forall c : char,
  isspace c = true ->
  (Basic.letter c || Basic.digit c || (c =? 95))%N%bool = false.
Proof.
  intros c Hs.
  destruct (Basic.letter c || Basic.digit c || (c =? 95)%N)%bool eqn:Hw;
    [exfalso|reflexivity].
  unfold isspace in Hs. unfold Basic.letter, Basic.digit, Basic.between in Hw.
  repeat match goal with
         | H : _ |- _ =>
             first [ rewrite orb_true_iff in H | rewrite andb_true_iff in H
                   | rewrite N.leb_le in H | rewrite N.eqb_eq in H ]
         end.
  lia.
Qed.

#[export] Instance basic_unicode : Unicode := {|
  isword := fun c => (Basic.letter c || Basic.digit c || (c =? 95))%N%bool;
  isdecimal := Basic.digit;
  isupper := Basic.upper_letter;
  isdigit := Basic.digit;
  lower := map Basic.lower1;
  ci_lit := fun p c => (Basic.lower1 c =? Basic.lower1 p)%N;
  ci_range := fun lo hi c =>
    (Basic.between lo hi (Basic.lower1 c) || Basic.between lo hi (Basic.upper1 c))%bool;
  ci_lit_uncased := basic_ci_lit_uncased;
  isword_hyphen := eq_refl;
  isword_space := basic_isword_space
|}.

Example utf8_literal :
  u"Ёж / pH" = [1025; 1078; 32; 47; 32; 112; 72]%N.
Proof. reflexivity. Qed.

Example split_join_example :
  split_nl (u"a" ++ [NL] ++ [NL] ++ u"b") = [u"a"; []; u"b"]
  /\ join [NL] [u"a"; []; u"b"] = u"a" ++ [NL; NL] ++ u"b"
  /\ strip (u"  a b ") = u"a b".
Proof. repeat split; reflexivity. Qed.


(** ** Regular expressions

    The fragment of Python's [re] syntax that the pipeline uses: literals,
    character classes, [* + +? ?] on a single character, concatenation,
    alternation, numbered groups, [^], [$] and [\b], with the flags
    [re.IGNORECASE] and [re.MULTILINE]. *)

Inductive citem :=
| CChar (c : char)
| CRange (lo hi : char)
| CSpace
| CDigit
| CWord.

Inductive atom :=
| Lit (c : char)
| Cls (items : list citem).

Inductive re :=
| Eps
| One (a : atom)
| Star (a : atom)
| Plus (a : atom)
| PlusLazy (a : atom)
| Opt (a : atom)
| Cat (r1 r2 : re)
| Or (r1 r2 : re)
| Grp (n : nat) (r : re)
| Bol
| Eol
| Wb.

Record regex := Regex {
  IGNORECASE : bool;
  MULTILINE : bool;
  body : re
}.

(** A match object: the matched text ([group(0)]) and the numbered groups. *)
Record mobj := Mobj {
  group0 : str;
  captures : list (nat * str)
}.

Fixpoint group_in (caps : list (nat * str)) (n : nat) : str :=
  match caps with
  | [] => []
  | (k, w) :: rest => if Nat.eqb k n then w else group_in rest n
  end.

Definition group (m : mobj) (n : nat) : str :=
  match n with
  | O => group0 m
  | _ => group_in (captures m) n
  end.

Section Matcher.
Context {U : Unicode}.

Definition citem_ok (ic : bool) (it : citem) (c : char) : bool :=
  match it with
  | CChar p => if ic then ci_lit p c else N.eqb c p
  | CRange lo hi => if ic then ci_range lo hi c else (N.leb lo c && N.leb c hi)
  | CSpace => isspace c
  | CDigit => isdecimal c
  | CWord => isword c
  end.

Definition atom_ok (ic : bool) (a : atom) (c : char) : bool :=
  match a with
  | Lit p => if ic then ci_lit p c else N.eqb c p
  | Cls items => existsb (fun it => citem_ok ic it c) items
  end.

Definition at_bol (ml : bool) (prev : option char) : bool :=
  match prev with
  | None => true
  | Some c => ml && N.eqb c NL
  end.

Definition at_eol (ml : bool) (s : str) : bool :=
  match s with
  | [] => true
  | c :: rest => N.eqb c NL && (ml || match rest with [] => true | _ => false end)
  end.

Definition word_at (o : option char) : bool :=
  match o with Some c => isword c | None => false end.

Definition at_wb (prev : option char) (s : str) : bool :=
  xorb (word_at prev) (word_at (hd_error s)).

Section Backtrack.
Variable A : Type.

Definition orelse (x : option A) (y : option A) : option A :=
  match x with Some a => Some a | None => y end.

(** Greedy repetition: the longest run first, then shorter ones. *)
Fixpoint star_greedy (p : char -> bool) (prev : option char) (s : str)
         (k : option char -> str -> option A) : option A :=
  match s with
  | c :: s' =>
      if p c then orelse (star_greedy p (Some c) s' k) (k prev s) else k prev s
  | [] => k prev s
  end.

(** Lazy repetition: the shortest run first, then longer ones. *)
Fixpoint star_lazy (p : char -> bool) (prev : option char) (s : str)
         (k : option char -> str -> option A) : option A :=
  match k prev s with
  | Some a => Some a
  | None =>
      match s with
      | c :: s' => if p c then star_lazy p (Some c) s' k else None
      | [] => None
      end
  end.

Definition one_char (p : char -> bool) (s : str)
           (k : option char -> str -> option A) : option A :=
  match s with
  | c :: s' => if p c then k (Some c) s' else None
  | [] => None
  end.

Fixpoint run (ic ml : bool) (r : re) (prev : option char) (s : str)
         (caps : list (nat * str))
         (k : option char -> str -> list (nat * str) -> option A) : option A :=
  match r with
  | Eps => k prev s caps
  | One a => one_char (atom_ok ic a) s (fun p' s' => k p' s' caps)
  | Star a => star_greedy (atom_ok ic a) prev s (fun p' s' => k p' s' caps)
  | Plus a =>
      one_char (atom_ok ic a) s
        (fun p1 s1 => star_greedy (atom_ok ic a) p1 s1 (fun p' s' => k p' s' caps))
  | PlusLazy a =>
      one_char (atom_ok ic a) s
        (fun p1 s1 => star_lazy (atom_ok ic a) p1 s1 (fun p' s' => k p' s' caps))
  | Opt a =>
      orelse (one_char (atom_ok ic a) s (fun p' s' => k p' s' caps)) (k prev s caps)
  | Cat r1 r2 =>
      run ic ml r1 prev s caps (fun p' s' c' => run ic ml r2 p' s' c' k)
  | Or r1 r2 =>
      orelse (run ic ml r1 prev s caps k) (run ic ml r2 prev s caps k)
  | Grp n r1 =>
      run ic ml r1 prev s caps
        (fun p' s' c' => k p' s' ((n, firstn (length s - length s') s) :: c'))
  | Bol => if at_bol ml prev then k prev s caps else None
  | Eol => if at_eol ml s then k prev s caps else None
  | Wb => if at_wb prev s then k prev s caps else None
  end.
End Backtrack.

(** The match that starts exactly at the cursor ([prev] is the character
    before it), if there is one. *)
Definition match_here (rx : regex) (prev : option char) (s : str) : option mobj :=
  run (IGNORECASE rx) (MULTILINE rx) (body rx) prev s []
      (fun _ s' caps => Some (Mobj (firstn (length s - length s') s) caps)).

(** [re.match(rx, s)] *)
Definition re_match (rx : regex) (s : str) : option mobj :=
  match_here rx None s.

(** [re.search(rx, s)]: the leftmost match. *)
Fixpoint search_from (rx : regex) (prev : option char) (s : str) : option mobj :=
  match match_here rx prev s with
  | Some m => Some m
  | None =>
      match s with
      | [] => None
      | c :: s' => search_from rx (Some c) s'
      end
  end.

Definition re_search (rx : regex) (s : str) : option mobj :=
  search_from rx None s.

Definition found (o : option mobj) : bool :=
  match o with Some _ => true | None => false end.

(** [rx.finditer(s)]: the non-overlapping matches from left to right.
    [skip] counts the characters still covered by the previous match.
    (No pattern that the pipeline passes to [finditer] or [sub] matches the
    empty string; after an empty match the scan moves on by one
    character.) *)
Fixpoint finditer_go (rx : regex) (skip : nat) (prev : option char) (s : str)
  : list mobj :=
  match s with
  | [] =>
      match skip with
      | O => match match_here rx prev [] with Some m => [m] | None => [] end
      | S _ => []
      end
  | c :: s' =>
      match skip with
      | S k => finditer_go rx k (Some c) s'
      | O =>
          match match_here rx prev s with
          | Some m => m :: finditer_go rx (pred (length (group0 m))) (Some c) s'
          | None => finditer_go rx 0 (Some c) s'
          end
      end
  end.

Definition finditer (rx : regex) (s : str) : list mobj :=
  finditer_go rx 0 None s.

(** [re.sub(rx, repl, s)], the replacement given as a function of the match
    (the template [\1\2] is [fun m => group m 1 ++ group m 2]). *)
Fixpoint sub_go (rx : regex) (repl : mobj -> str) (skip : nat)
         (prev : option char) (s : str) : str :=
  match s with
  | [] =>
      match skip with
      | O => match match_here rx prev [] with Some m => repl m | None => [] end
      | S _ => []
      end
  | c :: s' =>
      match skip with
      | S k => sub_go rx repl k (Some c) s'
      | O =>
          match match_here rx prev s with
          | Some m =>
              match length (group0 m) with
              | O => repl m ++ c :: sub_go rx repl 0 (Some c) s'
              | S k => repl m ++ sub_go rx repl k (Some c) s'
              end
          | None => c :: sub_go rx repl 0 (Some c) s'
          end
      end
  end.

Definition re_sub (rx : regex) (repl : mobj -> str) (s : str) : str :=
  sub_go rx repl 0 None s.

End Matcher.

(** Pattern syntax. *)
Fixpoint lit (s : str) : re :=
  match s with
  | [] => Eps
  | [c] => One (Lit c)
  | c :: s' => Cat (One (Lit c)) (lit s')
  end.

Fixpoint cat (rs : list re) : re :=
  match rs with
  | [] => Eps
  | [r] => r
  | r :: rs' => Cat r (cat rs')
  end.

Fixpoint alt (rs : list re) : re :=
  match rs with
  | [] => Eps
  | [r] => r
  | r :: rs' => Or r (alt rs')
  end.

Definition cc (s : string) : citem := CChar (chr s).
Definition rng (lo hi : string) : citem := CRange (chr lo) (chr hi).
Definition ws : atom := Cls [CSpace].       (* \s *)
Definition dg : atom := Cls [CDigit].       (* \d *)
Definition wd : atom := Cls [CWord].        (* \w *)
Definition ch (s : string) : re := One (Lit (chr s)).

Definition plain (r : re) : regex := Regex false false r.
Definition icase (r : re) : regex := Regex true false r.

(** ** Pages

    A page is the inner dictionary of the page map; every access in the
    source is [data.get(key, '')], so a missing key and an empty string are
    the same thing and the four keys become four fields.  The page map is a
    Python [dict] keyed by the page number: an association list in
    insertion order. *)

Record Page := mkPage {
  full_text : str;
  top_left_title_raw : str;
  top_left_title_norm : str;
  composition : str
}.

Definition PageMap := list (Z * Page).

Definition keys (pm : PageMap) : list Z := map fst pm.

(** [pm[n]]: [None] stands for [KeyError]. *)
Fixpoint getitem (pm : PageMap) (n : Z) : option Page :=
  match pm with
  | [] => None
  | (k, p) :: rest => if Z.eqb k n then Some p else getitem rest n
  end.

(** ** cleaner.py *)

Module TextCleaner.
Section Cleaner.
Context {U : Unicode}.

(* r'^\s*\d+\s*$', r'^\s*стр\.?\s*\d+\s*$', r'^\s*page\s+\d+\s*$',
   r'^\s*\d+\s*/\s*\d+\s*$', each used with re.IGNORECASE *)
Definition page_number_patterns : list regex :=
  [ icase (cat [Bol; Star ws; Plus dg; Star ws; Eol]);
    icase (cat [Bol; Star ws; lit u"стр"; Opt (Lit (chr ".")); Star ws;
                Plus dg; Star ws; Eol]);
    icase (cat [Bol; Star ws; lit u"page"; Plus ws; Plus dg; Star ws; Eol]);
    icase (cat [Bol; Star ws; Plus dg; Star ws; ch "/"; Star ws; Plus dg;
                Star ws; Eol]) ].

(* \1\2 *)
Definition join_groups (m : mobj) : str := group m 1 ++ group m 2.

(* [а-яёa-z] *)
Definition ru_en_letter : atom := Cls [rng "а" "я"; cc "ё"; rng "a" "z"].

Definition fix_hyphenation (text : str) : str :=
  (* (\w+)-\s+(\w+) *)
  let text := re_sub (plain (cat [Grp 1 (Plus wd); ch "-"; Plus ws; Grp 2 (Plus wd)]))
                     join_groups text in
  (* (\w+)-\n\s*(\w+) *)
  let text := re_sub (plain (cat [Grp 1 (Plus wd); ch "-"; One (Lit NL); Star ws;
                                  Grp 2 (Plus wd)]))
                     join_groups text in
  (* ([а-яёa-z])-\s+([а-яёa-z]), re.IGNORECASE *)
  let text := re_sub (icase (cat [Grp 1 (One ru_en_letter); ch "-"; Plus ws;
                                  Grp 2 (One ru_en_letter)]))
                     join_groups text in
  (* ([а-яёa-z])-\n\s*([а-яёa-z]), re.IGNORECASE *)
  let text := re_sub (icase (cat [Grp 1 (One ru_en_letter); ch "-"; One (Lit NL);
                                  Star ws; Grp 2 (One ru_en_letter)]))
                     join_groups text in
  text.

Definition erase (_ : mobj) : str := [].

(* [\s\t] *)
Definition blank : atom := Cls [CSpace; CChar TAB].

Definition strip_marker (line : str) : str :=
  (* ^[\s\t]*[•·▪▫][\s\t]+ *)
  let line := re_sub (plain (cat [Bol; Star blank;
                                  One (Cls [cc "•"; cc "·"; cc "▪"; cc "▫"]);
                                  Plus blank])) erase line in
  (* ^[\s\t]*[-*][\s\t]+ *)
  let line := re_sub (plain (cat [Bol; Star blank; One (Cls [cc "-"; cc "*"]);
                                  Plus blank])) erase line in
  (* ^[\s\t]*\d+[\.\)\-][\s\t]+ *)
  let line := re_sub (plain (cat [Bol; Star blank; Plus dg;
                                  One (Cls [cc "."; cc ")"; cc "-"]);
                                  Plus blank])) erase line in
  (* ^[\s\t]*[IVX]+[\.\)][\s\t]+, re.IGNORECASE *)
  let line := re_sub (icase (cat [Bol; Star blank;
                                  Plus (Cls [cc "I"; cc "V"; cc "X"]);
                                  One (Cls [cc "."; cc ")"]);
                                  Plus blank])) erase line in
  (* ^[\s\t]*[а-яёa-z][\.\)\-][\s\t]+, re.IGNORECASE *)
  let line := re_sub (icase (cat [Bol; Star blank; One ru_en_letter;
                                  One (Cls [cc "."; cc ")"; cc "-"]);
                                  Plus blank])) erase line in
  (* line.lstrip('\t ') *)
  lstrip_by (fun c => N.eqb c TAB || N.eqb c SP) line.

Definition remove_list_markers (text : str) : str :=
  join [NL] (map strip_marker (split_nl text)).

Definition is_page_number (line : str) : bool :=
  existsb (fun pattern => found (re_match pattern line)) page_number_patterns.

Definition remove_page_numbers (text : str) : str :=
  join [NL] (filter (fun line => negb (is_page_number line)) (split_nl text)).

(* [.!?]\s*$ and [;:]\s*$ *)
Definition ends_sentence (s : str) : bool :=
  found (re_search (plain (cat [One (Cls [cc "."; cc "!"; cc "?"]); Star ws; Eol])) s).

Definition ends_clause (s : str) : bool :=
  found (re_search (plain (cat [One (Cls [cc ";"; cc ":"]); Star ws; Eol])) s).

(* next_line[0].isupper() and not next_line[0].isdigit(); the source only
   evaluates it on a non-empty line *)
Definition starts_upper (s : str) : bool :=
  match s with
  | c :: _ => isupper c && negb (isdigit c)
  | [] => false
  end.

(* re.search(r'^[А-ЯЁA-Z]', next_line[:3]) *)
Definition starts_capital (s : str) : bool :=
  found (re_search (plain (cat [Bol; One (Cls [rng "А" "Я"; cc "Ё"; rng "A" "Z"])]))
                   (firstn 3 s)).

(* the two ways the source glues the first continuation line *)
Definition glue (current next_line : str) : str :=
  if truthy current && negb (endswith current [SP]) && negb (startswith next_line [SP])
  then current ++ [SP] ++ next_line
  else strip (rstrip current ++ [SP] ++ lstrip next_line).

(** The [while i < len(lines)] loop of [merge_lines_in_sentences] with its
    inner [while]: [absorbing = Some current] is the inner loop (lines are
    being appended to [current]), [None] the outer one; [lines] is
    [lines[i:]].  A [break] of the inner loop that leaves [i] on the line
    hands that line to the outer loop body. *)
Fixpoint merge_go (absorbing : option str) (lines : list str) {struct lines}
  : list str :=
  match lines with
  | [] => match absorbing with Some current => [current] | None => [] end
  | l :: rest =>
      let outer :=
        let current := strip l in
        if negb (truthy current) then [] :: merge_go None rest
        else if ends_sentence current then current :: merge_go None rest
        else
          match rest with
          | [] => current :: merge_go None rest
          | l2 :: rest2 =>
              let next_line := strip l2 in
              if negb (truthy next_line) then current :: merge_go None rest
              else if starts_upper next_line && ends_clause current
              then current :: merge_go None rest
              else if starts_upper next_line && negb (endswith current (u","))
                      && negb (starts_capital next_line)
                      && Nat.ltb (length current) 50
              then current :: merge_go None rest
              else merge_go (Some (glue current next_line)) rest2
          end in
      match absorbing with
      | None => outer
      | Some current =>
          let next_line := strip l in
          if negb (truthy next_line) then current :: outer
          else if ends_sentence next_line
          then (current ++ [SP] ++ next_line) :: merge_go None rest
          else if starts_upper next_line && Nat.ltb (length next_line) 50
          then current :: outer
          else merge_go (Some (current ++ [SP] ++ next_line)) rest
      end
  end.

Definition merge_lines_in_sentences (text : str) : str :=
  join [NL] (merge_go None (split_nl text)).

(* skin\s+skin\s+ess\s+ess\s+ent\s+ent\s+ials\s+ials, re.IGNORECASE *)
Definition decorative : re :=
  cat [lit u"skin"; Plus ws; lit u"skin"; Plus ws; lit u"ess"; Plus ws; lit u"ess";
       Plus ws; lit u"ent"; Plus ws; lit u"ent"; Plus ws; lit u"ials"; Plus ws;
       lit u"ials"].

(** The rules applied, in order, to one page's [full_text]. *)
Definition clean_full_text (text : str) : str :=
  let cleaned := text in
  let cleaned := fix_hyphenation cleaned in
  let cleaned := remove_list_markers cleaned in
  let cleaned := remove_page_numbers cleaned in
  let cleaned := re_sub (icase decorative) erase cleaned in
  let cleaned := re_sub (icase (Cat decorative (Star ws))) erase cleaned in
  let cleaned := merge_lines_in_sentences cleaned in
  cleaned.

Definition clean_page (data : Page) : Page :=
  {| full_text := clean_full_text (full_text data);
     top_left_title_raw := top_left_title_raw data;
     top_left_title_norm := top_left_title_norm data;
     composition := composition data |}.

(** [cleaned_by_page[page_num] = {...}] for each item of [page_data], in
    the order of [page_data.items()]. *)
Definition clean_text (page_data : PageMap) : PageMap :=
  map (fun '(page_num, data) => (page_num, clean_page data)) page_data.

End Cleaner.
End TextCleaner.

Example fix_hyphenation_same_line :
  TextCleaner.fix_hyphenation (u"гидро- лизованный") = u"гидролизованный".
Proof. vm_compute. reflexivity. Qed.

Example fix_hyphenation_newline :
  TextCleaner.fix_hyphenation (u"экстра-" ++ [NL] ++ u"кт") = u"экстракт".
Proof. vm_compute. reflexivity. Qed.

Example fix_hyphenation_compound :
  TextCleaner.fix_hyphenation (u"24-часовой") = u"24-часовой".
Proof. vm_compute. reflexivity. Qed.

Example remove_list_markers_examples :
  TextCleaner.remove_list_markers (u"•  Наносить утром") = u"Наносить утром"
  /\ TextCleaner.remove_list_markers (u"1) Смыть водой") = u"Смыть водой".
Proof. split; vm_compute; reflexivity. Qed.

Example remove_page_numbers_example :
  TextCleaner.remove_page_numbers
    (u"Артикул" ++ [NL] ++ u"123" ++ [NL] ++ u"стр. 5" ++ [NL] ++ u"5 / 10 мл")
  = u"Артикул" ++ [NL] ++ u"5 / 10 мл".
Proof. vm_compute. reflexivity. Qed.

Example merge_lines_example :
  TextCleaner.merge_lines_in_sentences
    (u"текст" ++ [NL] ++ u"Для лица" ++ [NL] ++ u"и тела." ++ [NL] ++ u"Итог")
  = u"текст Для лица и тела." ++ [NL] ++ u"Итог".
Proof. vm_compute. reflexivity. Qed.

(** ** Errors and sorting *)

(** [None] is an uncaught [KeyError]. *)
Definition bind {A B : Type} (x : option A) (f : A -> option B) : option B :=
  match x with Some a => f a | None => None end.

Notation "x <- e ;; k" := (bind e (fun x => k))
  (at level 61, e at next level, right associativity).


Module ZOrder <: TotalLeBool.
Definition t := Z.
Definition leb := Z.leb.
Lemma leb_total : forall a b, leb a b = true \/ leb b a = true.
Proof. intros a b; unfold leb; destruct (Z.leb_spec a b); [left | right]; auto; apply Z.leb_le; lia. Qed.
End ZOrder.

Module ZSort := Sort ZOrder.

(** [sorted(d.keys())] *)
Definition sorted (l : list Z) : list Z := ZSort.sort l.

(** ** assembler.py *)

(** [self.title_lookup]: a [dict] from the lower-cased English title to
    the pair (Russian title, English title); an association list in
    insertion order, since the fuzzy search iterates over [items()]. *)
Definition TitleLookup := list (str * (str * str)).

Fixpoint lookup_get (d : TitleLookup) (key : str) : option (str * str) :=
  match d with
  | [] => None
  | (k, v) :: rest => if str_eqb k key then Some v else lookup_get rest key
  end.

(** [d[key] = v]: an existing key keeps its place. *)
Fixpoint lookup_set (d : TitleLookup) (key : str) (v : str * str) : TitleLookup :=
  match d with
  | [] => [(key, v)]
  | (k, w) :: rest =>
      if str_eqb k key then (k, v) :: rest else (k, w) :: lookup_set rest key v
  end.

Inductive BlockKind := Product | SectionBlock.

(** A block of the result.  The source returns the text only; the kind,
    the anchoring title and the page numbers are recorded beside it so
    that statements about block boundaries can be made. *)
Record Block := mkBlock {
  kind : BlockKind;
  anchor : str;
  page_numbers : list Z;
  text : str
}.

Module TextAssembler.
Section Assembler.
Context {U : Unicode}.

(* [А-ЯЁа-яё] and [a-zA-Z] *)
Definition cyr : list citem := [rng "А" "Я"; cc "Ё"; rng "а" "я"; cc "ё"].
Definition lat : list citem := [rng "a" "z"; rng "A" "Z"].
Definition punct : list citem := [CSpace; cc "-"; cc "."; cc ","].

(* ([А-ЯЁа-яё][А-ЯЁа-яё\s\-\.,]+?)\s*/\s*([a-zA-Z][a-zA-Z\s\-\.,]+?),
   re.IGNORECASE *)
Definition title_pattern : regex :=
  icase (cat [Grp 1 (Cat (One (Cls cyr)) (PlusLazy (Cls (cyr ++ punct))));
              Star ws; ch "/"; Star ws;
              Grp 2 (Cat (One (Cls lat)) (PlusLazy (Cls (lat ++ punct))))]).

(* Артикул\s+\d+, re.IGNORECASE *)
Definition article_line : regex :=
  icase (cat [lit u"Артикул"; Plus ws; Plus dg]).

Definition record_title (title_lookup : TitleLookup) (m : mobj) : TitleLookup :=
  let russian_full := strip (group m 1) in
  let english_full_original := strip (group m 2) in
  let english_full_lower := lower english_full_original in
  match lookup_get title_lookup english_full_lower with
  | None => lookup_set title_lookup english_full_lower
                       (russian_full, english_full_original)
  | Some (ru, _) =>
      if Nat.ltb (length ru) (length russian_full)
      then lookup_set title_lookup english_full_lower
                      (russian_full, english_full_original)
      else title_lookup
  end.

Definition scan_page (title_lookup : TitleLookup) (full_text : str) : TitleLookup :=
  fold_left record_title (finditer title_pattern full_text) title_lookup.

Fixpoint build_over (cleaned_by_page : PageMap) (page_nums : list Z)
         (title_lookup : TitleLookup) : option TitleLookup :=
  match page_nums with
  | [] => Some title_lookup
  | page_num :: rest =>
      data <- getitem cleaned_by_page page_num ;;
      build_over cleaned_by_page rest (scan_page title_lookup (full_text data))
  end.

Definition _build_title_lookup (cleaned_by_page : PageMap) : option TitleLookup :=
  build_over cleaned_by_page (firstn 5 (sorted (keys cleaned_by_page))) [].

(** The index of the first line with an article code. *)
Fixpoint first_article_line (lines : list str) (i : nat) : option nat :=
  match lines with
  | [] => None
  | line :: rest =>
      if found (re_search article_line line) then Some i
      else first_article_line rest (S i)
  end.

(** [lines[i]] for [i] in [range(idx - 1, max(0, idx - n) - 1, -1)]. *)
Definition lines_above (lines : list str) (idx n : nat) : list str :=
  rev (skipn (idx - n) (firstn idx lines)).

Definition has_cyrillic (line : str) : bool :=
  found (re_search (plain (One (Cls cyr))) line).

Definition latin_only (line : str) : bool :=
  found (re_search (plain (Cat Bol (One (Cls lat)))) line) && negb (has_cyrillic line).

(* артикул|article|мл|ml|home|professional, re.IGNORECASE *)
Definition english_boilerplate : regex :=
  icase (alt [lit u"артикул"; lit u"article"; lit u"мл"; lit u"ml"; lit u"home";
              lit u"professional"]).

Fixpoint english_above (window : list str) : option str :=
  match window with
  | [] => None
  | l :: rest =>
      let line := strip l in
      if negb (truthy line) then english_above rest
      else if latin_only line
              && negb (found (re_search english_boilerplate line))
              && Nat.leb 3 (length line) && Nat.leb (length line) 150
      then Some line
      else english_above rest
  end.

Definition title_in_text (text : str) : option str :=
  match re_search title_pattern text with
  | Some m => Some (strip (group m 2))
  | None => None
  end.

Definition _find_english_title_in_text (text : str) : option str :=
  let lines := split_nl text in
  let article_line_idx := first_article_line lines 0 in
  let above :=
    match article_line_idx with
    | Some ((S _) as idx) => english_above (lines_above lines idx 5)
    | Some O | None => None        (* [if article_line_idx:] is false *)
    end in
  match above with
  | Some line => Some line
  | None => title_in_text text
  end.

(* артикул|мл|домашняя|профессиональный|липидный|уровень|увлажнения,
   re.IGNORECASE *)
Definition russian_boilerplate : regex :=
  icase (alt [lit u"артикул"; lit u"мл"; lit u"домашняя"; lit u"профессиональный";
              lit u"липидный"; lit u"уровень"; lit u"увлажнения"]).

Fixpoint russian_above (window : list str) (russian_parts : list str) : list str :=
  match window with
  | [] => russian_parts
  | l :: rest =>
      let line := strip l in
      if negb (truthy line) then russian_above rest russian_parts
      else if found (re_search russian_boilerplate line)
      then russian_above rest russian_parts
      else if has_cyrillic line && Nat.leb 2 (length line)
      then russian_above rest (line :: russian_parts)
      else if latin_only line then russian_parts
      else russian_above rest russian_parts
  end.

Definition _find_russian_title_before_article (text : str) : option str :=
  let lines := split_nl text in
  match first_article_line lines 0 with
  | None => None
  | Some idx =>
      match russian_above (lines_above lines idx 8) [] with
      | [] => None
      | russian_parts => Some (join [SP] russian_parts)
      end
  end.

(** One round of the loop over [self.title_lookup.items()]; the state is
    [(best_match, best_match_length)]. *)
Definition fuzzy_step (english_lower : str) (best : option (str * str) * nat)
           (item : str * (str * str)) : option (str * str) * nat :=
  let '(lookup_en_lower, lookup_val) := item in
  let '(best_match, best_match_length) := best in
  if startswith lookup_en_lower english_lower then
    if Nat.ltb best_match_length (length lookup_en_lower)
    then (Some lookup_val, length lookup_en_lower) else best
  else if contains lookup_en_lower english_lower then
    if Nat.ltb best_match_length (length lookup_en_lower)
    then (Some lookup_val, length lookup_en_lower) else best
  else if Nat.leb 2 (length english_lower) && Nat.leb (length english_lower) 4
          && startswith lookup_en_lower english_lower then
    if Nat.ltb best_match_length (length lookup_en_lower)
    then (Some lookup_val, length lookup_en_lower) else best
  else best.

Definition fuzzy_match (title_lookup : TitleLookup) (english_lower : str)
  : option (str * str) :=
  fst (fold_left (fuzzy_step english_lower) title_lookup (None, O)).

(** Step 1 of [_resolve_full_title]: the entry of the table for the
    English title, by its exact key or else by the fuzzy search. *)
Definition lookup_title (title_lookup : TitleLookup) (english_lower : str)
  : option (str * str) :=
  match lookup_get title_lookup english_lower with
  | Some v => Some v
  | None => fuzzy_match title_lookup english_lower
  end.

Definition _resolve_full_title (title_lookup : TitleLookup)
           (title_from_roi page_text : str) : str :=
  let '(roi_russian, roi_english) :=
    match re_search title_pattern title_from_roi with
    | Some roi_match => (strip (group roi_match 1), Some (strip (group roi_match 2)))
    | None => (strip title_from_roi, None)
    end in
  let english_title := _find_english_title_in_text page_text in
  let english_title :=
    if negb (truthy_opt english_title) && truthy_opt roi_english
    then roi_english else english_title in
  match english_title with
  | None | Some [] => title_from_roi
  | Some english_title =>
      let english_lower := lower english_title in
      let '(full_russian, full_english) :=
        match lookup_title title_lookup english_lower with
        | Some (full_russian_from_lookup, full_english_from_lookup) =>
            (Some full_russian_from_lookup, full_english_from_lookup)
        | None => (None, english_title)
        end in
      let full_russian :=
        if negb (truthy_opt full_russian)
        then _find_russian_title_before_article page_text else full_russian in
      let full_russian :=
        if negb (truthy_opt full_russian) && truthy roi_russian
        then Some roi_russian else full_russian in
      match full_russian with
      | Some ((_ :: _) as ru) =>
          if truthy full_english then ru ++ u" / " ++ full_english else ru
      | _ => if truthy full_english then full_english else title_from_roi
      end
  end.

Definition blank_line (line : str) : bool := negb (truthy (strip line)).

(** The first loop of [clean_block]; [prev_empty] is the flag. *)
Fixpoint collapse_blank (prev_empty : bool) (lines : list str) : list str :=
  match lines with
  | [] => []
  | line :: rest =>
      if blank_line line
      then (if prev_empty then [] else [[]]) ++ collapse_blank true rest
      else line :: collapse_blank false rest
  end.

(** [while cleaned_lines and not cleaned_lines[0].strip(): cleaned_lines.pop(0)] *)
Fixpoint drop_blank (lines : list str) : list str :=
  match lines with
  | line :: rest => if blank_line line then drop_blank rest else lines
  | [] => []
  end.

Definition clean_block (block_text : str) : str :=
  let cleaned_lines := collapse_blank false (split_nl block_text) in
  let cleaned_lines := drop_blank cleaned_lines in
  let cleaned_lines := rev (drop_blank (rev cleaned_lines)) in
  join [NL] cleaned_lines.

(** The loop of [_create_product_block]; the state is
    [(page_texts, first_page_text, first_page_composition)]. *)
Fixpoint gather (cleaned_by_page : PageMap) (page_indices : list Z)
         (st : list str * str * str) : option (list str * str * str) :=
  match page_indices with
  | [] => Some st
  | page_num :: rest =>
      data <- getitem cleaned_by_page page_num ;;
      let '(page_texts, first_page_text, first_page_composition) := st in
      let full_text := full_text data in
      if truthy (strip full_text) then
        if negb (truthy first_page_text)
        then gather cleaned_by_page rest
                    (page_texts ++ [full_text], full_text, strip (composition data))
        else gather cleaned_by_page rest
                    (page_texts ++ [full_text], first_page_text, first_page_composition)
      else gather cleaned_by_page rest st
  end.

Definition _create_product_block (title_lookup : TitleLookup) (title : str)
           (page_indices : list Z) (cleaned_by_page : PageMap) : option str :=
  st <- gather cleaned_by_page page_indices ([], [], []) ;;
  let '(page_texts, _, first_page_composition) := st in
  let combined_text := join [NL; NL] page_texts in
  let full_title := _resolve_full_title title_lookup title combined_text in
  let cleaned_text := clean_block combined_text in
  let block_header :=
    if truthy first_page_composition
    then full_title ++ [NL] ++ first_page_composition else full_title in
  if truthy (strip cleaned_text)
  then Some (block_header ++ [NL; NL] ++ cleaned_text)
  else Some block_header.

Fixpoint section_texts (cleaned_by_page : PageMap) (page_indices : list Z)
  : option (list str) :=
  match page_indices with
  | [] => Some []
  | page_num :: rest =>
      data <- getitem cleaned_by_page page_num ;;
      page_texts <- section_texts cleaned_by_page rest ;;
      Some (if truthy (strip (full_text data))
            then full_text data :: page_texts else page_texts)
  end.

Definition _create_section_block (page_indices : list Z) (cleaned_by_page : PageMap)
  : option str :=
  page_texts <- section_texts cleaned_by_page page_indices ;;
  Some (clean_block (join [NL; NL] page_texts)).

(** The local variables of [assemble_by_title_anchors]. *)
Record Loop := mkLoop {
  all_blocks : list Block;
  current_product_title : option str;
  current_product_pages : list Z;
  section_pages : list Z
}.

Definition close_product (title_lookup : TitleLookup) (cleaned_by_page : PageMap)
           (st : Loop) : option (list Block) :=
  match current_product_title st, current_product_pages st with
  | Some ((_ :: _) as title), ((_ :: _) as pages) =>
      product_block <- _create_product_block title_lookup title pages cleaned_by_page ;;
      Some (all_blocks st ++ [mkBlock Product title pages product_block])
  | _, _ => Some (all_blocks st)
  end.

Definition same_title (title_norm : str) (current : option str) : bool :=
  match current with
  | Some t => str_eqb title_norm t
  | None => false
  end.

(** The body of [for page_num in sorted(cleaned_by_page.keys())]. *)
Definition page_step (title_lookup : TitleLookup) (cleaned_by_page : PageMap)
           (st : Loop) (page_num : Z) : option Loop :=
  page_data <- getitem cleaned_by_page page_num ;;
  let title_norm := strip (top_left_title_norm page_data) in
  if truthy title_norm then
    if negb (same_title title_norm (current_product_title st)) then
      blocks <- close_product title_lookup cleaned_by_page st ;;
      Some (mkLoop blocks (Some title_norm) [page_num] (section_pages st))
    else
      Some (mkLoop (all_blocks st) (current_product_title st)
                   (current_product_pages st ++ [page_num]) (section_pages st))
  else
    if truthy_opt (current_product_title st) then
      Some (mkLoop (all_blocks st) (current_product_title st)
                   (current_product_pages st ++ [page_num]) (section_pages st))
    else
      Some (mkLoop (all_blocks st) (current_product_title st)
                   (current_product_pages st) (section_pages st ++ [page_num])).

Fixpoint page_loop (title_lookup : TitleLookup) (cleaned_by_page : PageMap)
         (st : Loop) (page_nums : list Z) : option Loop :=
  match page_nums with
  | [] => Some st
  | page_num :: rest =>
      st' <- page_step title_lookup cleaned_by_page st page_num ;;
      page_loop title_lookup cleaned_by_page st' rest
  end.

Definition assemble_blocks (cleaned_by_page : PageMap) : option (list Block) :=
  title_lookup <- _build_title_lookup cleaned_by_page ;;
  st <- page_loop title_lookup cleaned_by_page (mkLoop [] None [] [])
                  (sorted (keys cleaned_by_page)) ;;
  blocks <- close_product title_lookup cleaned_by_page st ;;
  match section_pages st with
  | [] => Some blocks
  | _ :: _ =>
      section_block <- _create_section_block (section_pages st) cleaned_by_page ;;
      if truthy (strip section_block)
      then Some (mkBlock SectionBlock [] (section_pages st) section_block :: blocks)
      else Some blocks
  end.

(** What the source returns: the texts of the blocks. *)
Definition assemble_by_title_anchors (cleaned_by_page : PageMap) : option (list str) :=
  blocks <- assemble_blocks cleaned_by_page ;;
  Some (map text blocks).

End Assembler.
End TextAssembler.

Definition assemble_text {U : Unicode} (cleaned_by_page : PageMap) : option (list str) :=
  TextAssembler.assemble_by_title_anchors cleaned_by_page.

(** ** extractor.py: the order of the strategies *)

Module PDFExtractor.

Inductive Method := PyMuPDF | Pdfplumber | OCR.

(** What a call of one strategy does: it returns a page map or raises. *)
Inductive Outcome :=
| Returns (result : PageMap)
| Raises (error_msg : str).

(** The PDF as the three readers see it.  [extract_with_pymupdf] and
    [extract_with_pdfplumber] catch every exception and return [{}];
    [extract_with_ocr] raises when the OCR modules are missing. *)
Record Pdf := mkPdf {
  OCR_AVAILABLE : bool;
  extract_with_pymupdf : PageMap;
  extract_with_pdfplumber : PageMap;
  extract_with_ocr : Outcome
}.

(* result and any(data.get('full_text', '').strip() for data in result.values()) *)
Definition has_text (result : PageMap) : bool :=
  match result with
  | [] => false
  | _ :: _ => existsb (fun item => truthy (strip (full_text (snd item)))) result
  end.

(** [extract]: the strategies called, in call order, and the page map
    returned ([None]: the final [raise Exception(...)]). *)
Definition extract (pdf : Pdf) : list Method * option PageMap :=
  let result := extract_with_pymupdf pdf in
  if has_text result then ([PyMuPDF], Some result)
  else
    let result := extract_with_pdfplumber pdf in
    if has_text result then ([PyMuPDF; Pdfplumber], Some result)
    else if OCR_AVAILABLE pdf then
      match extract_with_ocr pdf with
      | Returns result =>
          if has_text result then ([PyMuPDF; Pdfplumber; OCR], Some result)
          else ([PyMuPDF; Pdfplumber; OCR], None)
      | Raises _ => ([PyMuPDF; Pdfplumber; OCR], None)
      end
    else ([PyMuPDF; Pdfplumber], None).

(** What a strategy yields when it is called. *)
Definition yield (pdf : Pdf) (m : Method) : option PageMap :=
  match m with
  | PyMuPDF => Some (extract_with_pymupdf pdf)
  | Pdfplumber => Some (extract_with_pdfplumber pdf)
  | OCR => match extract_with_ocr pdf with
           | Returns result => Some result
           | Raises _ => None
           end
  end.

Definition yields_text (pdf : Pdf) (m : Method) : bool :=
  match yield pdf m with
  | Some result => has_text result
  | None => false
  end.

Definition applicable (pdf : Pdf) (m : Method) : bool :=
  match m with
  | OCR => OCR_AVAILABLE pdf
  | _ => true
  end.

Definition strategy_order : list Method := [PyMuPDF; Pdfplumber; OCR].

End PDFExtractor.

(** ** qc.py *)

Module QualityController.
Section QC.
Context {U : Unicode}.







(* Артикул\s+(\d+), re.IGNORECASE *)
Definition article_pattern : regex :=
  icase (cat [lit u"Артикул"; Plus ws; Grp 1 (Plus dg)]).

(* ([А-ЯЁа-яё\s\-]+)\s*/\s*([A-Za-z\s\-]+) *)
Definition product_title_pattern : regex :=
  plain (cat [Grp 1 (Plus (Cls [rng "А" "Я"; cc "Ё"; rng "а" "я"; cc "ё"; CSpace; cc "-"]));
              Star ws; ch "/"; Star ws;
              Grp 2 (Plus (Cls [rng "A" "Z"; rng "a" "z"; CSpace; cc "-"]))]).

(* \bpH\s*[=:]?\s*[\d.]+, re.IGNORECASE *)
Definition ph_pattern : regex :=
  icase (cat [Wb; lit u"pH"; Star ws; Opt (Cls [cc "="; cc ":"]); Star ws;
              Plus (Cls [CDigit; cc "."])]).







End QC.
End QualityController.

(** ** main.py: the stages after extraction *)

Section Main.
Context {U : Unicode}.

(** The text written to [cleaned.txt]: the blocks separated by a blank
    line. *)
Definition final_text (blocks : list str) : str := join [NL; NL] blocks.






End Main.

Definition scenario : PageMap :=
  [ (1%Z, mkPage (u"Артикул 111") (u"Крем / Cream") (u"Крем / Cream") []);
    (2%Z, mkPage (u"pH 5.5") [] [] []);
    (3%Z, mkPage (u"Артикул 222") (u"Тоник / Tonic") (u"Тоник / Tonic") []) ].

(** ** Runs of the model on small inputs *)

(** The two groups of the title pattern end in a lazy [+?]: the English
    group of a match is its first letter and one more character. *)
Example title_pattern_groups :
  map (fun m => (group m 1, group m 2))
      (finditer TextAssembler.title_pattern
                (u"Крем / Cream" ++ [NL] ++ u"Тоник для лица / Tonic"))
  = [ (u"Крем", u"Cr"); (u"Тоник для лица", u"To") ].
Proof. vm_compute. reflexivity. Qed.

Example qc_patterns_run :
  map (fun m => group m 1)
      (finditer QualityController.article_pattern
                (u"Артикул" ++ [NL] ++ u"123 артикул 5"))
  = [u"123"; u"5"]
  /\ map (fun m => group m 0)
         (finditer QualityController.ph_pattern (u"pH 5.5, ph=7 xpH 3 pH: 4."))
     = [u"pH 5.5"; u"ph=7"; u"pH: 4."]
  /\ map (fun m => group m 0)
         (finditer QualityController.product_title_pattern
                   (u"Крем / Cr" ++ [NL; NL] ++ u"Артикул 111"))
     = [u"Крем / Cr" ++ [NL; NL]].
Proof. repeat split; vm_compute; reflexivity. Qed.

(** The three-page scenario of the specification: two product blocks,
    over the pages 1, 2 and the page 3. *)
Example scenario_blocks :
  TextAssembler.assemble_blocks (TextCleaner.clean_text scenario)
  = Some [ mkBlock Product (u"Крем / Cream") [1%Z; 2%Z]
                   (u"Крем / Cr" ++ [NL; NL] ++ u"Артикул 111" ++ [NL; NL] ++ u"pH 5.5");
           mkBlock Product (u"Тоник / Tonic") [3%Z]
                   (u"Тоник / To" ++ [NL; NL] ++ u"Артикул 222") ].
Proof. vm_compute. reflexivity. Qed.

(** * Properties *)

(** ** Basic facts about strings, dictionaries and sorting *)

Lemma str_eqb_eq : forall a b : str, str_eqb a b = true <-> a = b.
Proof.
  induction a as [|x a IH]; destruct b as [|y b]; simpl; split; intro H;
    try reflexivity; try discriminate.
  - apply andb_true_iff in H as [H1 H2].
    apply N.eqb_eq in H1. apply IH in H2. congruence.
  - inversion H; subst. rewrite N.eqb_refl. simpl. apply IH. reflexivity.
Qed.

Lemma str_eqb_refl : forall a : str, str_eqb a a = true.
Proof. intro a. apply str_eqb_eq. reflexivity. Qed.

Lemma str_eqb_neq : forall a b : str, str_eqb a b = false <-> a <> b.
Proof.
  intros a b. split.
  - intros H E. apply str_eqb_eq in E. congruence.
  - intros H. destruct (str_eqb a b) eqn:E; [|reflexivity].
    apply str_eqb_eq in E. contradiction.
Qed.

Lemma truthy_true : forall s : str, truthy s = true <-> s <> [].
Proof. destruct s; simpl; split; intro H; congruence. Qed.

Lemma truthy_false : forall s : str, truthy s = false <-> s = [].
Proof. destruct s; simpl; split; intro H; congruence. Qed.

Lemma getitem_In : forall (pm : PageMap) n,
  In n (keys pm) -> exists p, getitem pm n = Some p.
Proof.
  induction pm as [|[k p] pm IH]; simpl; intros n H; [contradiction|].
  destruct (Z.eqb_spec k n) as [E|E]; [eauto|].
  destruct H as [H|H]; [contradiction|]. apply IH; assumption.
Qed.

Lemma getitem_Some_In : forall (pm : PageMap) n p,
  getitem pm n = Some p -> In n (keys pm).
Proof.
  induction pm as [|[k q] pm IH]; simpl; intros n p H; [discriminate|].
  destruct (Z.eqb_spec k n) as [E|E]; [left; assumption|].
  right. eapply IH; eassumption.
Qed.

Lemma sorted_perm : forall l, Permutation l (sorted l).
Proof. intro l. apply ZSort.Permuted_sort. Qed.

Lemma sorted_In : forall l n, In n (sorted l) <-> In n l.
Proof.
  intros l n. split; intro H.
  - eapply Permutation_in; [apply Permutation_sym, sorted_perm|assumption].
  - eapply Permutation_in; [apply sorted_perm|assumption].
Qed.

Lemma sorted_ascending : forall l, StronglySorted Z.le (sorted l).
Proof.
  intro l.
  assert (H : StronglySorted (fun a b => is_true (Z.leb a b)) (sorted l)).
  { apply ZSort.StronglySorted_sort.
    intros a b c Hab Hbc. unfold is_true in *.
    apply Z.leb_le in Hab, Hbc. apply Z.leb_le. lia. }
  induction H as [|a r Hs IH Hall]; constructor; [assumption|].
  eapply Forall_impl; [|exact Hall].
  intros b Hb. apply Z.leb_le. exact Hb.
Qed.

(** ** The order of the extraction strategies *)

Section ExtractOrder.
Import PDFExtractor.

Definition before (m1 m2 : Method) : bool :=
  match m1, m2 with
  | PyMuPDF, Pdfplumber | PyMuPDF, OCR | Pdfplumber, OCR => true
  | _, _ => false
  end.

Lemma has_text_nonempty : forall result, has_text result = true -> result <> [].
Proof. intros [|x r] H; [discriminate|congruence]. Qed.

(** C4.  [extract] calls the strategies in the fixed order PyMuPDF,
    pdfplumber, OCR: the calls made are a non-empty initial segment of that
    order; a strategy is called exactly when it is applicable (OCR only
    when [OCR_AVAILABLE]) and no earlier strategy yielded a page with
    non-blank text; a page map is returned exactly when it is the yield of
    a called strategy and has a page with non-blank text (so it is never
    empty and never text-free); and the exception is raised exactly when
    no applicable strategy yields a page with non-blank text. *)
Theorem extract_strategy_order : forall pdf : Pdf,
  let attempts := fst (extract pdf) in
  let result := snd (extract pdf) in
  (exists n, (1 <= n)%nat /\ attempts = firstn n strategy_order)
  /\ (forall m, In m attempts <->
                applicable pdf m = true
                /\ forall m', before m' m = true -> yields_text pdf m' = false)
  /\ (forall r, result = Some r <->
                exists m, In m attempts /\ yield pdf m = Some r /\ has_text r = true)
  /\ (forall r, result = Some r -> has_text r = true /\ r <> [])
  /\ (result = None <->
      forall m, applicable pdf m = true -> yields_text pdf m = false).
Proof.
  intros [ocr_ok r1 r2 o3].
  unfold extract, yields_text, yield, applicable, strategy_order; simpl.
  destruct (has_text r1) eqn:H1; simpl.
  { split; [exists 1%nat; split; [lia|reflexivity]|].
    split.
    { intros m; split.
      - intros [<-|[]]. split; [reflexivity|]. intros [| |]; simpl; discriminate.
      - intros [_ Hb]. destruct m; [left; reflexivity| |];
          specialize (Hb PyMuPDF eq_refl); simpl in Hb; congruence. }
    split.
    { intros r; split.
      - intros E; inversion E; subst. exists PyMuPDF. simpl. auto.
      - intros [m [[<-|[]] [E _]]]. simpl in E. exact E. }
    split.
    { intros r E; inversion E; subst. split; [assumption|].
      apply has_text_nonempty; assumption. }
    split; [discriminate|].
    intros H. specialize (H PyMuPDF eq_refl). simpl in H. congruence. }
  destruct (has_text r2) eqn:H2; simpl.
  { split; [exists 2%nat; split; [lia|reflexivity]|].
    split.
    { intros m; split.
      - intros [<-|[<-|[]]]; (split; [reflexivity|]); intros [| |]; simpl;
          try discriminate; auto.
      - intros [_ Hb]. destruct m; [left; reflexivity|right; left; reflexivity|].
        specialize (Hb Pdfplumber eq_refl); simpl in Hb; congruence. }
    split.
    { intros r; split.
      - intros E; inversion E; subst. exists Pdfplumber. simpl. auto.
      - intros [m [[<-|[<-|[]]] [E Ht]]]; simpl in E; inversion E; subst;
          congruence. }
    split.
    { intros r E; inversion E; subst. split; [assumption|].
      apply has_text_nonempty; assumption. }
    split; [discriminate|].
    intros H. specialize (H Pdfplumber eq_refl). simpl in H. congruence. }
  destruct ocr_ok; simpl.
  - assert (Hatt : forall X : option PageMap,
               fst (match o3 with
                    | Returns result =>
                        if has_text result
                        then ([PyMuPDF; Pdfplumber; OCR], Some result)
                        else ([PyMuPDF; Pdfplumber; OCR], None)
                    | Raises _ => ([PyMuPDF; Pdfplumber; OCR], None)
                    end) = [PyMuPDF; Pdfplumber; OCR]).
    { intros _. destruct o3 as [r3|msg]; [destruct (has_text r3)|]; reflexivity. }
    rewrite (Hatt None).
    split; [exists 3%nat; split; [lia|reflexivity]|].
    split.
    { intros m; split.
      - intros _. split; [destruct m; reflexivity|].
        intros [| |]; destruct m; simpl; try discriminate; auto.
      - intros _. destruct m; simpl; auto. }
    destruct o3 as [r3|msg]; [destruct (has_text r3) eqn:H3|]; simpl.
    + split.
      { intros r; split.
        - intros E; inversion E; subst. exists OCR. simpl. auto.
        - intros [m [_ [E Ht]]]. destruct m; simpl in E; inversion E; subst;
            congruence. }
      split.
      { intros r E; inversion E; subst. split; [assumption|].
        apply has_text_nonempty; assumption. }
      split; [discriminate|].
      intros H. specialize (H OCR eq_refl). simpl in H. congruence.
    + split.
      { intros r; split; [discriminate|].
        intros [m [_ [E Ht]]]. destruct m; simpl in E; inversion E; subst;
          congruence. }
      split; [discriminate|].
      split; [|reflexivity].
      intros _ [| |] _; simpl; assumption.
    + split.
      { intros r; split; [discriminate|].
        intros [m [_ [E Ht]]]. destruct m; simpl in E; inversion E; subst;
          congruence. }
      split; [discriminate|].
      split; [|reflexivity].
      intros _ [| |] _; simpl; auto.
  - split; [exists 2%nat; split; [lia|reflexivity]|].
    split.
    { intros m; split.
      - intros [<-|[<-|[]]]; (split; [reflexivity|]); intros [| |]; simpl;
          try discriminate; auto.
      - intros [Ha _]. destruct m; simpl in Ha; try discriminate; simpl; auto. }
    split.
    { intros r; split; [discriminate|].
      intros [m [[<-|[<-|[]]] [E Ht]]]; simpl in E; inversion E; subst;
        congruence. }
    split; [discriminate|].
    split; [|reflexivity].
    intros _ [| |]; simpl; auto; discriminate.
Qed.

End ExtractOrder.

(** ** The cleaner touches [full_text] only *)

Section CleanerFrame.
Context {U : Unicode}.
Import TextCleaner.

Lemma keys_clean_text : forall page_data : PageMap,
  keys (clean_text page_data) = keys page_data.
Proof.
  induction page_data as [|[n d] pm IH]; simpl; [reflexivity|].
  f_equal. exact IH.
Qed.

Lemma getitem_clean_text : forall (page_data : PageMap) n,
  getitem (clean_text page_data) n = option_map clean_page (getitem page_data n).
Proof.
  induction page_data as [|[k d] pm IH]; simpl; intro n; [reflexivity|].
  destruct (Z.eqb k n); [reflexivity|apply IH].
Qed.

(** C6.  The cleaned page map has the same page numbers as the input, in
    the same order, and under every page number the page it holds is the
    input page with [full_text] replaced by its cleaned form: the raw
    title, the normalized title and the composition are those of the
    input. *)
Theorem clean_text_frame : forall (page_data : PageMap),
  keys (clean_text page_data) = keys page_data
  /\ forall n,
       option_map top_left_title_raw (getitem (clean_text page_data) n)
         = option_map top_left_title_raw (getitem page_data n)
       /\ option_map top_left_title_norm (getitem (clean_text page_data) n)
         = option_map top_left_title_norm (getitem page_data n)
       /\ option_map composition (getitem (clean_text page_data) n)
         = option_map composition (getitem page_data n)
       /\ option_map full_text (getitem (clean_text page_data) n)
         = option_map (fun data => clean_full_text (full_text data))
                      (getitem page_data n).
Proof.
  intro page_data. split; [apply keys_clean_text|].
  intro n. rewrite getitem_clean_text.
  destruct (getitem page_data n) as [d|]; simpl; auto.
Qed.

End CleanerFrame.

(** ** The English title when the article code is on the first line *)

Section EnglishTitle.
Context {U : Unicode}.
Import TextAssembler.

Lemma split_nl_nonempty : forall s, split_nl s <> [].
Proof.
  induction s as [|c s IH]; simpl; [discriminate|].
  destruct (N.eqb c NL); [discriminate|].
  destruct (split_nl s); discriminate.
Qed.

(** C10.  When the first line of the text carries an article code, the
    index found is 0, the scan of the lines above the article line is
    not run, and the result is the English part of the first 'RU / EN'
    occurrence in the text, or [None] when there is none. *)
Theorem english_title_article_on_first_line : forall text : str,
  found (re_search article_line (hd [] (split_nl text))) = true ->
  first_article_line (split_nl text) 0 = Some 0%nat
  /\ _find_english_title_in_text text
     = match re_search title_pattern text with
       | Some m => Some (strip (group m 2))
       | None => None
       end.
Proof.
  intros text H.
  assert (E : first_article_line (split_nl text) 0 = Some 0%nat).
  { destruct (split_nl text) as [|l ls] eqn:El.
    - exfalso. eapply split_nl_nonempty; eassumption.
    - simpl in *. rewrite H. reflexivity. }
  split; [exact E|].
  unfold _find_english_title_in_text. rewrite E. reflexivity.
Qed.

End EnglishTitle.

Lemma english_title_article_on_first_line_witness :
  TextAssembler._find_english_title_in_text
    (u"Артикул 111" ++ [NL] ++ u"Cleansing Milk" ++ [NL] ++ u"Молочко / Milk")
  = Some (u"Mi").
Proof.
  pose proof (@english_title_article_on_first_line basic_unicode
                (u"Артикул 111" ++ [NL] ++ u"Cleansing Milk" ++ [NL] ++ u"Молочко / Milk")
                eq_refl) as [_ H].
  rewrite H. vm_compute. reflexivity.
Defined.

(** ** The title lookup table *)

Section TitleLookupFacts.
Context {U : Unicode}.
Import TextAssembler.

(** The key and the entry that a match of the title pattern stands for. *)
Definition key_of (m : mobj) : str := lower (strip (group m 2)).
Definition entry_of (m : mobj) : str * str := (strip (group m 1), strip (group m 2)).

(** The title matches of the pages that the builder reads, in reading
    order. *)
Definition toc_matches (cleaned_by_page : PageMap) : list mobj :=
  flat_map (fun page_num =>
              match getitem cleaned_by_page page_num with
              | Some data => finditer title_pattern (full_text data)
              | None => []
              end)
           (firstn 5 (sorted (keys cleaned_by_page))).

Lemma lookup_get_set_same : forall d k v, lookup_get (lookup_set d k v) k = Some v.
Proof.
  induction d as [|[k0 w] d IH]; intros k v; simpl.
  - rewrite str_eqb_refl. reflexivity.
  - destruct (str_eqb k0 k) eqn:E; simpl; rewrite E; [reflexivity|apply IH].
Qed.

Lemma lookup_get_set_other : forall d k v k',
  k' <> k -> lookup_get (lookup_set d k v) k' = lookup_get d k'.
Proof.
  induction d as [|[k0 w] d IH]; intros k v k' Hne; simpl.
  - apply str_eqb_neq in Hne. destruct (str_eqb k k') eqn:E; [|reflexivity].
    apply str_eqb_eq in E. subst. rewrite str_eqb_refl in Hne. discriminate.
  - destruct (str_eqb k0 k) eqn:E; simpl.
    + apply str_eqb_eq in E. subst k0.
      destruct (str_eqb k k') eqn:E'; [|reflexivity].
      apply str_eqb_eq in E'. congruence.
    + destruct (str_eqb k0 k'); [reflexivity|]. apply IH. assumption.
Qed.

(** How one key of the table evolves when a match is recorded. *)
Definition update_for (key : str) (cur : option (str * str)) (m : mobj)
  : option (str * str) :=
  if str_eqb (key_of m) key then
    match cur with
    | None => Some (entry_of m)
    | Some (ru, en) =>
        if Nat.ltb (length ru) (length (fst (entry_of m)))
        then Some (entry_of m) else Some (ru, en)
    end
  else cur.

Lemma record_title_get : forall d m key,
  lookup_get (record_title d m) key = update_for key (lookup_get d key) m.
Proof.
  intros d m key. unfold record_title, update_for.
  fold (key_of m). change (strip (group m 1), strip (group m 2)) with (entry_of m).
  change (strip (group m 1)) with (fst (entry_of m)).
  destruct (str_eqb (key_of m) key) eqn:E.
  - apply str_eqb_eq in E. subst key.
    destruct (lookup_get d (key_of m)) as [[ru en]|] eqn:G.
    + destruct (Nat.ltb (length ru) (length (fst (entry_of m)))).
      * apply lookup_get_set_same.
      * exact G.
    + apply lookup_get_set_same.
  - apply str_eqb_neq in E.
    destruct (lookup_get d (key_of m)) as [[ru en]|] eqn:G.
    + destruct (Nat.ltb (length ru) (length (fst (entry_of m)))).
      * apply lookup_get_set_other. congruence.
      * reflexivity.
    + apply lookup_get_set_other. congruence.
Qed.

Lemma scan_get : forall ms d key,
  lookup_get (fold_left record_title ms d) key
  = fold_left (update_for key) ms (lookup_get d key).
Proof.
  induction ms as [|m ms IH]; intros d key; simpl; [reflexivity|].
  rewrite IH, record_title_get. reflexivity.
Qed.

(** [ms] holds, for [key], the entry [(ru, en)] as the first of the
    longest: it comes from a match of [ms], every earlier match with this
    key has a strictly shorter Russian title, no later one a longer. *)
Definition first_longest (key : str) (ms : list mobj) (ru en : str) : Prop :=
  exists earlier m later,
    ms = earlier ++ m :: later
    /\ key_of m = key /\ entry_of m = (ru, en)
    /\ (forall m', In m' earlier -> key_of m' = key ->
                   length (fst (entry_of m')) < length ru)
    /\ (forall m', In m' later -> key_of m' = key ->
                   length (fst (entry_of m')) <= length ru).

Lemma update_for_cases : forall key cur m,
  (key_of m <> key /\ update_for key cur m = cur)
  \/ (key_of m = key /\ update_for key cur m = Some (entry_of m)
      /\ forall ru0 en0, cur = Some (ru0, en0) ->
                         length ru0 < length (fst (entry_of m)))
  \/ (key_of m = key /\ update_for key cur m = cur
      /\ exists ru0 en0, cur = Some (ru0, en0)
                         /\ length (fst (entry_of m)) <= length ru0).
Proof.
  intros key cur m. unfold update_for.
  destruct (str_eqb (key_of m) key) eqn:E.
  - apply str_eqb_eq in E. right.
    destruct cur as [[ru0 en0]|].
    + destruct (Nat.ltb (length ru0) (length (fst (entry_of m)))) eqn:L.
      * apply Nat.ltb_lt in L. left. repeat split; auto.
        intros ? ? Eq; inversion Eq; subst; exact L.
      * apply Nat.ltb_ge in L. right. repeat split; auto.
        exists ru0, en0. split; [reflexivity|exact L].
    + left. repeat split; auto. discriminate.
  - apply str_eqb_neq in E. left. split; [assumption|reflexivity].
Qed.

Lemma first_longest_cons_other : forall key m ms ru en,
  first_longest key ms ru en ->
  (key_of m = key -> length (fst (entry_of m)) < length ru) ->
  first_longest key (m :: ms) ru en.
Proof.
  intros key m ms ru en [e1 [m1 [l1 [Hs [Hk [He [Hb Ha]]]]]]] Hm.
  exists (m :: e1), m1, l1. subst ms. repeat split; try assumption.
  intros m' [Heq|Hin] Hk'; [subst m'; apply Hm; assumption|].
  apply Hb; assumption.
Qed.

Lemma first_longest_here : forall key m ms ru en,
  key_of m = key -> entry_of m = (ru, en) ->
  (forall m', In m' ms -> key_of m' = key ->
              length (fst (entry_of m')) <= length ru) ->
  first_longest key (m :: ms) ru en.
Proof.
  intros key m ms ru en Hk He Hall.
  exists [], m, ms. repeat split; try assumption.
  intros m' [].
Qed.

Lemma update_for_fold : forall key ms cur,
  match fold_left (update_for key) ms cur with
  | None => cur = None /\ forall m, In m ms -> key_of m <> key
  | Some (ru, en) =>
      (cur = Some (ru, en)
       /\ forall m, In m ms -> key_of m = key ->
                    length (fst (entry_of m)) <= length ru)
      \/ (first_longest key ms ru en
          /\ forall ru0 en0, cur = Some (ru0, en0) -> length ru0 < length ru)
  end.
Proof.
  intros key. induction ms as [|m ms IH]; intros cur; simpl.
  - destruct cur as [[ru en]|]; [left|]; split; auto; intros m [].
  - specialize (IH (update_for key cur m)).
    destruct (update_for_cases key cur m)
      as [[Hk Hu]|[[Hk [Hu Hlt]]|[Hk [Hu [ru0 [en0 [Hc Hle]]]]]]];
      rewrite Hu in IH |- *;
      destruct (fold_left (update_for key) ms _) as [[ru en]|].
    + destruct IH as [[Hc Hall]|[Hf Hlt]].
      * left. split; [assumption|].
        intros m' [Heq|Hin] Hk'; [subst m'; contradiction|].
        apply Hall; assumption.
      * right. split; [|assumption].
        apply first_longest_cons_other; [assumption|].
        intro; contradiction.
    + destruct IH as [Hc Hall]. split; [assumption|].
      intros m' [Heq|Hin]; [subst m'; assumption|]. apply Hall; assumption.
    + right. destruct IH as [[Hc Hall]|[Hf Hlt']].
      * assert (He : entry_of m = (ru, en)) by congruence. split.
        -- apply first_longest_here; assumption.
        -- intros ru0 en0 Hcur. specialize (Hlt _ _ Hcur).
           rewrite He in Hlt. exact Hlt.
      * split.
        -- apply first_longest_cons_other; [assumption|].
           intros _. destruct (entry_of m) as [rum enm] eqn:Em.
           apply (Hlt' _ _ eq_refl).
        -- intros ru0 en0 Hcur. specialize (Hlt _ _ Hcur).
           destruct (entry_of m) as [rum enm] eqn:Em.
           specialize (Hlt' _ _ eq_refl). simpl in Hlt. lia.
    + destruct IH as [Hc _]. discriminate.
    + subst cur. destruct IH as [[Hc' Hall]|[Hf Hlt]].
      * assert (ru0 = ru /\ en0 = en) as [? ?] by (split; congruence).
        subst ru0 en0. left. split; [reflexivity|].
        intros m' [Heq|Hin] Hk'; [subst m'; assumption|].
        apply Hall; assumption.
      * right. split; [|assumption].
        apply first_longest_cons_other; [assumption|].
        intros _. specialize (Hlt _ _ eq_refl). lia.
    + destruct IH as [Hc' _]. subst cur. discriminate.
Qed.

Lemma build_over_total : forall pm page_nums d,
  (forall n, In n page_nums -> In n (keys pm)) ->
  build_over pm page_nums d
  = Some (fold_left record_title
            (flat_map (fun page_num =>
                         match getitem pm page_num with
                         | Some data => finditer title_pattern (full_text data)
                         | None => []
                         end) page_nums) d).
Proof.
  intros pm. induction page_nums as [|n ns IH]; intros d Hin; simpl; [reflexivity|].
  destruct (getitem_In pm n (Hin n (or_introl eq_refl))) as [p Hp].
  rewrite Hp. simpl. rewrite fold_left_app.
  apply IH. intros k Hk. apply Hin. right. assumption.
Qed.

Lemma firstn_In : forall (A : Type) n (l : list A) x, In x (firstn n l) -> In x l.
Proof.
  intros A n. induction n as [|n IH]; intros [|a l] x H; simpl in *; try contradiction.
  destruct H as [H|H]; [left; assumption|right; apply IH; assumption].
Qed.

Lemma build_title_lookup_total : forall pm,
  _build_title_lookup pm = Some (fold_left record_title (toc_matches pm) []).
Proof.
  intro pm. unfold _build_title_lookup, toc_matches.
  apply build_over_total.
  intros n Hn. apply firstn_In in Hn. apply (proj1 (sorted_In _ _)) in Hn.
  assumption.
Qed.

Lemma build_over_agree : forall pm1 pm2 page_nums d,
  (forall n, In n page_nums -> getitem pm1 n = getitem pm2 n) ->
  build_over pm1 page_nums d = build_over pm2 page_nums d.
Proof.
  intros pm1 pm2. induction page_nums as [|n ns IH]; intros d H; simpl; [reflexivity|].
  rewrite (H n (or_introl eq_refl)).
  destruct (getitem pm2 n) as [p|]; simpl; [|reflexivity].
  apply IH. intros k Hk. apply H. right. assumption.
Qed.

(** C5.  The builder never fails; it reads the pages under the first five
    page numbers in ascending order and no other page (two page maps that
    agree there give the same table); an entry is stored under the
    lower-cased English span of a match and holds that match's Russian
    and English spans; of the matches that share a key the table holds
    the first of those with the longest Russian span, so a later match
    replaces the entry only when its Russian span is strictly longer. *)
Theorem title_lookup_first_five_longest : forall pm : PageMap,
  exists title_lookup,
    _build_title_lookup pm = Some title_lookup
    /\ StronglySorted Z.le (sorted (keys pm))
    /\ (forall pm',
          firstn 5 (sorted (keys pm')) = firstn 5 (sorted (keys pm)) ->
          (forall n, In n (firstn 5 (sorted (keys pm))) -> getitem pm' n = getitem pm n) ->
          _build_title_lookup pm' = Some title_lookup)
    /\ (forall key ru en,
          lookup_get title_lookup key = Some (ru, en) ->
          first_longest key (toc_matches pm) ru en)
    /\ (forall key,
          lookup_get title_lookup key = None ->
          forall m, In m (toc_matches pm) -> lower (strip (group m 2)) <> key).
Proof.
  intro pm. exists (fold_left record_title (toc_matches pm) []).
  split; [apply build_title_lookup_total|].
  split; [apply sorted_ascending|].
  split.
  { intros pm' Hk Hg. rewrite <- build_title_lookup_total.
    unfold _build_title_lookup. rewrite Hk.
    apply build_over_agree. assumption. }
  split.
  - intros key ru en H. rewrite scan_get in H. simpl in H.
    pose proof (update_for_fold key (toc_matches pm) None) as F.
    rewrite H in F. destruct F as [[Hc _]|[Hf _]]; [discriminate|exact Hf].
  - intros key H. rewrite scan_get in H. simpl in H.
    pose proof (update_for_fold key (toc_matches pm) None) as F.
    rewrite H in F. destruct F as [_ Hall]. exact Hall.
Qed.

End TitleLookupFacts.

Definition toc_example : PageMap :=
  [ (2%Z, mkPage (u"Крем для рук / Cream") [] [] []);
    (0%Z, mkPage (u"Крем / Cream, Гель / Cream") [] [] []);
    (1%Z, mkPage (u"Тоник / Tonic") [] [] []) ].

Lemma title_lookup_first_five_longest_witness :
  TextAssembler._build_title_lookup toc_example
  = Some [ (u"cr", (u"Крем для рук", u"Cr")); (u"to", (u"Тоник", u"To")) ]
  /\ first_longest (u"cr") (toc_matches toc_example) (u"Крем для рук") (u"Cr").
Proof.
  destruct (@title_lookup_first_five_longest basic_unicode toc_example)
    as [d [Hd [_ [_ [Hsome _]]]]].
  assert (E : d = [ (u"cr", (u"Крем для рук", u"Cr")); (u"to", (u"Тоник", u"To")) ]).
  { vm_compute in Hd. inversion Hd. reflexivity. }
  subst d. split; [vm_compute; reflexivity|].
  apply Hsome. vm_compute. reflexivity.
Defined.

(** ** Fuzzy resolution of a title against the table *)

Section FuzzyResolution.
Context {U : Unicode}.
Import TextAssembler.

(** The fuzzy rule as the specification words it: an entry whose key
    starts with the candidate first, then an entry whose key contains it,
    then, for a candidate of 2 to 4 characters, a prefix match; within a
    kind the longest key wins. *)
Definition longest_key (entries : TitleLookup) : option (str * str) :=
  fst (fold_left (fun best item =>
                    if Nat.ltb (snd best) (length (fst item))
                    then (Some (snd item), length (fst item)) else best)
                 entries (None, O)).

Definition spec_fuzzy_match (title_lookup : TitleLookup) (candidate : str)
  : option (str * str) :=
  match longest_key (filter (fun item => startswith (fst item) candidate) title_lookup) with
  | Some v => Some v
  | None =>
      match longest_key (filter (fun item => contains (fst item) candidate) title_lookup) with
      | Some v => Some v
      | None =>
          if Nat.leb 2 (length candidate) && Nat.leb (length candidate) 4
          then longest_key (filter (fun item => startswith (fst item) candidate)
                                   title_lookup)
          else None
      end
  end.

Lemma startswith_contains : forall s p, startswith s p = true -> contains s p = true.
Proof. intros [|c s] p H; cbn [contains]; rewrite H; reflexivity. Qed.

(** The three branches of the loop body amount to one test. *)
Lemma fuzzy_step_eq : forall c best n k v,
  fuzzy_step c (best, n) (k, v)
  = if contains k c && Nat.ltb n (length k) then (Some v, length k) else (best, n).
Proof.
  intros c best n k v. unfold fuzzy_step.
  destruct (startswith k c) eqn:S.
  - rewrite (startswith_contains _ _ S). reflexivity.
  - destruct (contains k c); simpl; [reflexivity|].
    rewrite andb_false_r. reflexivity.
Qed.

(** [d] holds [v] as the first of the entries with the longest key among
    those whose key contains the candidate. *)
Definition first_longest_key (c : str) (d : TitleLookup) (v : str * str) : Prop :=
  exists earlier k later,
    d = earlier ++ (k, v) :: later
    /\ contains k c = true
    /\ (forall k' v', In (k', v') earlier -> contains k' c = true ->
                      length k' < length k)
    /\ (forall k' v', In (k', v') later -> contains k' c = true ->
                      length k' <= length k).

Lemma fuzzy_fold : forall c d best n,
  let r := fold_left (fuzzy_step c) d (best, n) in
  (r = (best, n)
   /\ forall k v, In (k, v) d -> contains k c = true -> length k <= n)
  \/ (exists earlier k v later,
        d = earlier ++ (k, v) :: later
        /\ r = (Some v, length k)
        /\ contains k c = true /\ n < length k
        /\ (forall k' v', In (k', v') earlier -> contains k' c = true ->
                          length k' < length k)
        /\ (forall k' v', In (k', v') later -> contains k' c = true ->
                          length k' <= length k)).
Proof.
  intros c. induction d as [|[k v] d IH]; intros best n; cbv zeta; cbn [fold_left].
  - left. split; [reflexivity|]. intros k v [].
  - cbv zeta in IH. rewrite fuzzy_step_eq.
    destruct (contains k c && Nat.ltb n (length k)) eqn:T.
    + apply andb_true_iff in T as [Tc Tl]. apply Nat.ltb_lt in Tl.
      right. destruct (IH (Some v) (length k))
        as [[Hr Hall]|[e1 [k1 [v1 [l1 [Hs [Hr [Hc [Hn [Hb Ha]]]]]]]]]].
      * exists [], k, v, d. repeat split; try assumption.
        intros k' v' [].
      * exists ((k, v) :: e1), k1, v1, l1. subst d. repeat split; try assumption.
        -- lia.
        -- intros k' v' [Heq|Hin] Hc'; [inversion Heq; subst; assumption|].
           eapply Hb; eassumption.
    + assert (Hk : contains k c = true -> length k <= n).
      { intro Hc. rewrite Hc in T. simpl in T. apply Nat.ltb_ge in T. exact T. }
      destruct (IH best n)
        as [[Hr Hall]|[e1 [k1 [v1 [l1 [Hs [Hr [Hc [Hn [Hb Ha]]]]]]]]]].
      * left. split; [assumption|].
        intros k' v' [Heq|Hin] Hc'; [inversion Heq; subst; auto|].
        eapply Hall; eassumption.
      * right. exists ((k, v) :: e1), k1, v1, l1. subst d.
        repeat split; try assumption.
        intros k' v' [Heq|Hin] Hc'.
        -- inversion Heq; subst. specialize (Hk Hc'). lia.
        -- eapply Hb; eassumption.
Qed.

Definition milk_table : TitleLookup :=
  [ (u"milk bath", (u"Молочная ванна", u"Milk Bath"));
    (u"cleansing milk", (u"Очищающее молочко", u"Cleansing Milk")) ].

(** C3 (as amended).  When the exact key is in the table its entry is the
    result.  Otherwise the loop keeps one running best over all entries
    whose key contains the candidate, a key that starts with it being one
    of them: the result is the first of the entries with the longest such
    key, and there is none exactly when no non-empty key contains the
    candidate.  The candidate "cleans" selects the entry keyed
    "cleansing milk", and of the entries "milk" and "cleansing milk" the
    longer key wins. *)
Theorem fuzzy_longest_containing_key : forall (title_lookup : TitleLookup) (c : str),
  (forall v, lookup_get title_lookup c = Some v -> lookup_title title_lookup c = Some v)
  /\ (lookup_get title_lookup c = None ->
      lookup_title title_lookup c = fuzzy_match title_lookup c)
  /\ (forall v, fuzzy_match title_lookup c = Some v ->
                first_longest_key c title_lookup v)
  /\ (fuzzy_match title_lookup c = None <->
      forall k v, In (k, v) title_lookup -> contains k c = true -> k = [])
  /\ lookup_title [(u"cleansing milk", (u"Очищающее молочко", u"Cleansing Milk"))]
                  (u"cleans")
     = Some (u"Очищающее молочко", u"Cleansing Milk")
  /\ lookup_title [ (u"milk", (u"Молочко", u"Milk"));
                    (u"cleansing milk", (u"Очищающее молочко", u"Cleansing Milk")) ]
                  (u"ilk")
     = Some (u"Очищающее молочко", u"Cleansing Milk").
Proof.
  intros d c. split; [|split; [|split; [|split; [|split]]]].
  - intros v H. unfold lookup_title. rewrite H. reflexivity.
  - intros H. unfold lookup_title. rewrite H. reflexivity.
  - intros v H. unfold fuzzy_match in H.
    destruct (fuzzy_fold c d None O)
      as [[Hr Hall]|[e1 [k1 [v1 [l1 [Hs [Hr [Hc [Hn [Hb Ha]]]]]]]]]];
      rewrite Hr in H; simpl in H; [discriminate|].
    inversion H; subst v1. exists e1, k1, l1. repeat split; assumption.
  - unfold fuzzy_match.
    destruct (fuzzy_fold c d None O)
      as [[Hr Hall]|[e1 [k1 [v1 [l1 [Hs [Hr [Hc [Hn [Hb Ha]]]]]]]]]];
      rewrite Hr; simpl; split; intro H.
    + intros k v Hin Hc. specialize (Hall k v Hin Hc).
      destruct k; [reflexivity|simpl in Hall; lia].
    + reflexivity.
    + discriminate.
    + exfalso. assert (k1 = []).
      { apply (H k1 v1); [|assumption]. subst d. apply in_or_app. right. left.
        reflexivity. }
      subst k1. simpl in Hn. lia.
  - vm_compute. reflexivity.
  - vm_compute. reflexivity.
Qed.

End FuzzyResolution.

Lemma fuzzy_longest_containing_key_witness :
  TextAssembler.lookup_title milk_table (u"milk")
  = Some (u"Очищающее молочко", u"Cleansing Milk")
  /\ first_longest_key (u"milk") milk_table (u"Очищающее молочко", u"Cleansing Milk").
Proof.
  destruct (@fuzzy_longest_containing_key milk_table (u"milk"))
    as [_ [Hnone [Hsome _]]].
  split.
  - rewrite (Hnone eq_refl). vm_compute. reflexivity.
  - apply Hsome. vm_compute. reflexivity.
Defined.

(** C3 as stated fails: the key "milk bath" starts with the candidate
    "milk" and the key "cleansing milk" only contains it, yet the code
    selects "cleansing milk" (the longer key), where the rule of the
    specification selects "milk bath". *)
Lemma fuzzy_prefix_not_preferred :
  startswith (u"milk bath") (u"milk") = true
  /\ startswith (u"cleansing milk") (u"milk") = false
  /\ contains (u"cleansing milk") (u"milk") = true
  /\ TextAssembler.lookup_title milk_table (u"milk")
     = Some (u"Очищающее молочко", u"Cleansing Milk")
  /\ spec_fuzzy_match milk_table (u"milk") = Some (u"Молочная ванна", u"Milk Bath")
  /\ TextAssembler.lookup_title milk_table (u"milk")
     <> spec_fuzzy_match milk_table (u"milk").
Proof.
  repeat split; try (vm_compute; reflexivity).
  vm_compute. discriminate.
Qed.

(** ** Block assembly as a state machine over the sorted pages *)

Section Assembly.
Context {U : Unicode}.
Import TextAssembler.

Variable pm : PageMap.
Variable title_lookup : TitleLookup.

(** The normalized title of the page under a page number. *)
Definition norm_title (cleaned_by_page : PageMap) (n : Z) : str :=
  match getitem cleaned_by_page n with
  | Some data => strip (top_left_title_norm data)
  | None => []
  end.

(** The pages of one product: the first carries the title, every other
    page carries the same title or none. *)
Definition run_pages (cleaned_by_page : PageMap) (t : str) (pages : list Z) : Prop :=
  exists first others,
    pages = first :: others
    /\ norm_title cleaned_by_page first = t
    /\ Forall (fun n => norm_title cleaned_by_page n = []
                        \/ norm_title cleaned_by_page n = t) others.

Definition product_run (cleaned_by_page : PageMap) (b : Block) : Prop :=
  kind b = Product /\ anchor b <> []
  /\ run_pages cleaned_by_page (anchor b) (page_numbers b).

Fixpoint adjacent_differ (titles : list str) : Prop :=
  match titles with
  | a :: rest =>
      match rest with
      | b :: _ => a <> b
      | [] => True
      end /\ adjacent_differ rest
  | [] => True
  end.

Definition rendered (lookup : TitleLookup) (cleaned_by_page : PageMap) (b : Block) : Prop :=
  _create_product_block lookup (anchor b) (page_numbers b) cleaned_by_page
  = Some (text b).

Lemma adjacent_differ_snoc : forall l a b,
  adjacent_differ (l ++ [a]) -> a <> b -> adjacent_differ ((l ++ [a]) ++ [b]).
Proof.
  induction l as [|x l IH]; intros a b H Hne; simpl in *.
  - repeat split; auto.
  - destruct H as [H1 H2]. split; [|apply IH; assumption].
    destruct l; simpl in *; assumption.
Qed.

Lemma adjacent_differ_init : forall l a,
  adjacent_differ (l ++ [a]) -> adjacent_differ l.
Proof.
  induction l as [|x l IH]; intros a H; simpl in *; [exact I|].
  destruct H as [H1 H2]. split; [|eapply IH; eassumption].
  destruct l; simpl in *; [exact I|assumption].
Qed.

Lemma gather_total : forall pages st,
  Forall (fun n => In n (keys pm)) pages ->
  exists r, gather pm pages st = Some r.
Proof.
  induction pages as [|n pages IH]; intros st H; simpl; [eauto|].
  inversion H as [|? ? Hn Hrest]; subst.
  destruct (getitem_In pm n Hn) as [d Hd]. rewrite Hd. simpl.
  destruct st as [[texts first] comp].
  destruct (truthy (strip (full_text d))); [destruct (negb (truthy first))|];
    apply IH; assumption.
Qed.

Lemma create_product_block_total : forall title pages,
  Forall (fun n => In n (keys pm)) pages ->
  exists block, _create_product_block title_lookup title pages pm = Some block.
Proof.
  intros title pages H. unfold _create_product_block.
  destruct (gather_total ([], [], []) H) as [[[texts first] comp] Hg].
  rewrite Hg. simpl.
  destruct (truthy (strip (clean_block (join [NL; NL] texts)))); eauto.
Qed.

Lemma section_texts_total : forall pages,
  Forall (fun n => In n (keys pm)) pages ->
  exists texts, section_texts pm pages = Some texts.
Proof.
  induction pages as [|n pages IH]; intros H; simpl; [eauto|].
  inversion H as [|? ? Hn Hrest]; subst.
  destruct (getitem_In pm n Hn) as [d Hd]. rewrite Hd. simpl.
  destruct (IH Hrest) as [texts Ht]. rewrite Ht. simpl. eauto.
Qed.

(** The invariant of the page loop after the pages [done]. *)
Record Inv (done : list Z) (st : Loop) : Prop := mkInv {
  inv_keys : Forall (fun n => In n (keys pm)) done;
  inv_pages : section_pages st ++ List.concat (map page_numbers (all_blocks st))
              ++ current_product_pages st = done;
  inv_section : Forall (fun n => norm_title pm n = []) (section_pages st);
  inv_runs : Forall (product_run pm) (all_blocks st);
  inv_rendered : Forall (rendered title_lookup pm) (all_blocks st);
  inv_current :
    match current_product_title st with
    | None => current_product_pages st = [] /\ all_blocks st = []
    | Some t =>
        t <> [] /\ run_pages pm t (current_product_pages st)
        /\ adjacent_differ (map anchor (all_blocks st) ++ [t])
    end
}.

Lemma inv_init : Inv [] (mkLoop [] None [] []).
Proof. constructor; simpl; auto. Qed.

Lemma Forall_snoc : forall (A : Type) (P : A -> Prop) l x,
  Forall P l -> P x -> Forall P (l ++ [x]).
Proof. intros A P l x Hl Hx. apply Forall_app. split; [assumption|]. constructor; auto. Qed.

Lemma inv_current_pages_keys : forall done st,
  Inv done st -> Forall (fun n => In n (keys pm)) (current_product_pages st).
Proof.
  intros done st I. pose proof (inv_keys I) as K. rewrite <- (inv_pages I) in K.
  apply Forall_app in K as [_ K]. apply Forall_app in K as [_ K]. exact K.
Qed.

Lemma run_pages_snoc : forall t pages n,
  run_pages pm t pages -> (norm_title pm n = [] \/ norm_title pm n = t) ->
  run_pages pm t (pages ++ [n]).
Proof.
  intros t pages n [first [others [Hp [Hf Ho]]]] Hn. subst pages.
  exists first, (others ++ [n]). split; [reflexivity|]. split; [assumption|].
  apply Forall_snoc; assumption.
Qed.

Lemma page_step_inv : forall done st n,
  Inv done st -> In n (keys pm) ->
  exists st', page_step title_lookup pm st n = Some st' /\ Inv (done ++ [n]) st'.
Proof.
  intros done st n I Hn. unfold page_step.
  destruct (getitem_In pm n Hn) as [d Hd]. rewrite Hd. simpl.
  assert (Ht : norm_title pm n = strip (top_left_title_norm d)).
  { unfold norm_title. rewrite Hd. reflexivity. }
  assert (K : Forall (fun k => In k (keys pm)) (done ++ [n])).
  { apply Forall_snoc; [exact (inv_keys I)|exact Hn]. }
  pose proof (inv_current I) as C.
  pose proof (inv_pages I) as P.
  destruct st as [blocks cur pages sec]; simpl in *.
  rewrite <- Ht.
  destruct (truthy (norm_title pm n)) eqn:T.
  - apply truthy_true in T.
    destruct cur as [t0|]; simpl.
    + destruct C as [Ht0 [Hrun Hadj]].
      destruct (str_eqb (norm_title pm n) t0) eqn:E; simpl.
      * apply str_eqb_eq in E.
        eexists. split; [reflexivity|].
        constructor; simpl; try assumption.
        -- rewrite <- P. rewrite <- !app_assoc. reflexivity.
        -- exact (inv_section I).
        -- exact (inv_runs I).
        -- exact (inv_rendered I).
        -- split; [assumption|]. split; [|assumption].
           apply run_pages_snoc; [assumption|right; assumption].
      * apply str_eqb_neq in E.
        unfold close_product; simpl.
        destruct t0 as [|c0 t0]; [congruence|].
        destruct Hrun as [first [others [Hp [Hf Ho]]]]. subst pages.
        destruct (@create_product_block_total (c0 :: t0) (first :: others))
          as [block Hb].
        { exact (inv_current_pages_keys I). }
        rewrite Hb. simpl.
        eexists. split; [reflexivity|].
        constructor; simpl; try assumption.
        -- rewrite <- P. rewrite map_app, concat_app. simpl.
           rewrite app_nil_r. rewrite <- !app_assoc. reflexivity.
        -- exact (inv_section I).
        -- apply Forall_snoc; [exact (inv_runs I)|].
           repeat split; simpl; try assumption; try discriminate.
           exists first, others. auto.
        -- apply Forall_snoc; [exact (inv_rendered I)|]. exact Hb.
        -- split; [assumption|]. split.
           ++ exists n, []. auto.
           ++ rewrite map_app. simpl. apply adjacent_differ_snoc; [assumption|].
              congruence.
    + destruct C as [Hp Hb]. subst pages blocks.
      unfold close_product; simpl.
      eexists. split; [reflexivity|].
      constructor; simpl; try assumption.
      * rewrite <- P. simpl. rewrite app_nil_r. reflexivity.
      * exact (inv_section I).
      * constructor.
      * constructor.
      * split; [assumption|]. split; [exists n, []; auto|]. simpl. auto.
  - apply truthy_false in T.
    destruct cur as [t0|]; simpl.
    + destruct C as [Ht0 [Hrun Hadj]].
      destruct t0 as [|c0 t0]; [congruence|]. simpl.
      eexists. split; [reflexivity|].
      constructor; simpl; try assumption.
      * rewrite <- P. rewrite <- !app_assoc. reflexivity.
      * exact (inv_section I).
      * exact (inv_runs I).
      * exact (inv_rendered I).
      * split; [assumption|]. split; [|assumption].
        apply run_pages_snoc; [assumption|left; assumption].
    + destruct C as [Hp Hb]. subst pages blocks.
      eexists. split; [reflexivity|].
      constructor; simpl; try assumption.
      * rewrite <- P. simpl. rewrite !app_nil_r. reflexivity.
      * apply Forall_snoc; [exact (inv_section I)|assumption].
      * constructor.
      * constructor.
      * auto.
Qed.

Lemma page_loop_inv : forall todo done st,
  Inv done st -> Forall (fun n => In n (keys pm)) todo ->
  exists st', page_loop title_lookup pm st todo = Some st' /\ Inv (done ++ todo) st'.
Proof.
  induction todo as [|n todo IH]; intros done st I H; simpl.
  - exists st. rewrite app_nil_r. auto.
  - inversion H as [|? ? Hn Hrest]; subst.
    destruct (@page_step_inv done st n I Hn) as [st1 [Hs I1]]. rewrite Hs. simpl.
    destruct (IH (done ++ [n]) st1 I1 Hrest) as [st' [Hl I']].
    exists st'. split; [assumption|].
    rewrite <- app_assoc in I'. exact I'.
Qed.

(** Closing the product that is open after the last page. *)
Lemma close_product_inv : forall done st,
  Inv done st ->
  exists products,
    close_product title_lookup pm st = Some products
    /\ section_pages st ++ List.concat (map page_numbers products) = done
    /\ Forall (product_run pm) products
    /\ Forall (rendered title_lookup pm) products
    /\ adjacent_differ (map anchor products).
Proof.
  intros done st I.
  pose proof (inv_current I) as C. pose proof (inv_pages I) as P.
  destruct st as [blocks cur pages sec]; simpl in *.
  unfold close_product; simpl.
  destruct cur as [t0|].
  - destruct C as [Ht0 [Hrun Hadj]].
    destruct t0 as [|c0 t0]; [congruence|].
    destruct Hrun as [first [others [Hp [Hf Ho]]]]. subst pages.
    destruct (@create_product_block_total (c0 :: t0) (first :: others))
      as [block Hb].
    { exact (inv_current_pages_keys I). }
    rewrite Hb. simpl. eexists. split; [reflexivity|].
    split; [|split; [|split]].
    + rewrite <- P. rewrite map_app, concat_app. simpl. rewrite app_nil_r.
      reflexivity.
    + apply Forall_snoc; [exact (inv_runs I)|].
      repeat split; simpl; try assumption; try discriminate.
      exists first, others. auto.
    + apply Forall_snoc; [exact (inv_rendered I)|]. exact Hb.
    + rewrite map_app. exact Hadj.
  - destruct C as [Hp Hb]. subst pages blocks.
    exists []. simpl. split; [reflexivity|]. simpl in P. rewrite app_nil_r in *.
    repeat split; auto.
Qed.

End Assembly.

Section AssemblyResult.
Context {U : Unicode}.
Import TextAssembler.

Lemma sorted_keys_in : forall pm : PageMap,
  Forall (fun n => In n (keys pm)) (sorted (keys pm)).
Proof.
  intro pm. apply Forall_forall. intros n H.
  apply (proj1 (sorted_In _ _)) in H. exact H.
Qed.

(** The shape of the result of the assembler: the sorted page numbers
    split into the section pages and the runs of the products, in order;
    the section block comes first when its text is not blank. *)
Lemma assemble_blocks_structure : forall pm : PageMap,
  exists title_lookup sec products section_text,
    _build_title_lookup pm = Some title_lookup
    /\ sec ++ List.concat (map page_numbers products) = sorted (keys pm)
    /\ Forall (fun n => norm_title pm n = []) sec
    /\ Forall (product_run pm) products
    /\ Forall (rendered title_lookup pm) products
    /\ adjacent_differ (map anchor products)
    /\ _create_section_block sec pm = Some section_text
    /\ assemble_blocks pm
       = Some ((if truthy (strip section_text)
                then [mkBlock SectionBlock [] sec section_text] else [])
               ++ products).
Proof.
  intro pm. unfold assemble_blocks.
  rewrite build_title_lookup_total. cbn [bind].
  set (title_lookup := fold_left record_title (toc_matches pm) []).
  destruct (@page_loop_inv U pm title_lookup (sorted (keys pm)) [] _
              (inv_init pm title_lookup) (sorted_keys_in pm))
    as [st [Hloop I]].
  rewrite Hloop. cbn [bind]. simpl in I.
  destruct (close_product_inv I) as [products [Hc [Hp [Hr [Hrd Ha]]]]].
  rewrite Hc. cbn [bind].
  assert (Hk : Forall (fun n => In n (keys pm)) (section_pages st)).
  { pose proof (sorted_keys_in pm) as K. rewrite <- Hp in K.
    apply Forall_app in K as [K _]. exact K. }
  destruct (@section_texts_total pm (section_pages st) Hk) as [texts Ht].
  exists title_lookup, (section_pages st), products,
    (clean_block (join [NL; NL] texts)).
  split; [reflexivity|]. split; [assumption|].
  split; [exact (inv_section I)|]. split; [assumption|]. split; [assumption|].
  split; [assumption|].
  assert (Hs : _create_section_block (section_pages st) pm
               = Some (clean_block (join [NL; NL] texts))).
  { unfold _create_section_block. rewrite Ht. reflexivity. }
  split; [exact Hs|].
  destruct (section_pages st) as [|n0 sec0] eqn:Es.
  - simpl in Ht. inversion Ht; subst texts. reflexivity.
  - rewrite Hs. cbn [bind].
    destruct (truthy (strip (clean_block (join [NL; NL] texts)))); reflexivity.
Qed.

(** Two neighbours of the concatenated page lists are neighbours inside
    one block, or the last page of a block and the first page of the
    next. *)
Lemma adjacent_in_runs : forall (products : list Block) before p q after,
  Forall (fun b => page_numbers b <> []) products ->
  List.concat (map page_numbers products) = before ++ p :: q :: after ->
  (exists bs1 b bs2 x y,
      products = bs1 ++ b :: bs2 /\ page_numbers b = x ++ p :: q :: y)
  \/ (exists bs1 b1 b2 bs2 x y,
         products = bs1 ++ b1 :: b2 :: bs2
         /\ page_numbers b1 = x ++ [p] /\ page_numbers b2 = q :: y).
Proof.
  induction products as [|b bs IH]; intros before p q after Hne H; simpl in H.
  - destruct before; discriminate.
  - inversion Hne as [|? ? Hb Hbs]; subst.
    apply app_eq_app in H as [l [[H1 H2]|[H1 H2]]].
    + destruct l as [|a l].
      * simpl in H2. rewrite app_nil_r in H1.
        destruct (IH [] p q after Hbs (eq_sym H2))
          as [[bs1 [b0 [bs2 [x [y [E1 E2]]]]]]
             |[bs1 [b1 [b2 [bs2 [x [y [E1 [E2 E3]]]]]]]]].
        -- left. exists (b :: bs1), b0, bs2, x, y. subst bs. auto.
        -- right. exists (b :: bs1), b1, b2, bs2, x, y. subst bs. auto.
      * simpl in H2. inversion H2; subst a.
        destruct l as [|a l].
        -- simpl in *. right.
           destruct bs as [|b2 bs2]; [discriminate|].
           inversion Hbs as [|? ? Hb2 _]; subst.
           simpl in H3. destruct (page_numbers b2) as [|q' y] eqn:E2; [congruence|].
           simpl in H3. inversion H3; subst q'.
           exists [], b, b2, bs2, before, y. auto.
        -- inversion H3; subst a. left.
           exists [], b, bs, before, l. auto.
    + destruct (IH l p q after Hbs H2)
        as [[bs1 [b0 [bs2 [x [y [E1 E2]]]]]]
           |[bs1 [b1 [b2 [bs2 [x [y [E1 [E2 E3]]]]]]]]].
      * left. exists (b :: bs1), b0, bs2, x, y. subst bs. auto.
      * right. exists (b :: bs1), b1, b2, bs2, x, y. subst bs. auto.
Qed.

Lemma adjacent_differ_middle : forall l1 a b l2,
  adjacent_differ (l1 ++ a :: b :: l2) -> a <> b.
Proof.
  induction l1 as [|x l1 IH]; intros a b l2 H; simpl in H.
  - destruct H as [H _]. exact H.
  - destruct H as [_ H]. eapply IH; eassumption.
Qed.

Lemma run_title_of_member : forall pm t pages n,
  run_pages pm t pages -> In n pages -> norm_title pm n <> [] ->
  norm_title pm n = t.
Proof.
  intros pm t pages n [first [others [Hp [Hf Ho]]]] Hin Hne. subst pages.
  destruct Hin as [<-|Hin]; [assumption|].
  rewrite Forall_forall in Ho. destruct (Ho n Hin); [contradiction|assumption].
Qed.

Lemma run_nonempty : forall pm b, product_run pm b -> page_numbers b <> [].
Proof.
  intros pm b [_ [_ [first [others [Hp _]]]]]. rewrite Hp. discriminate.
Qed.

End AssemblyResult.

(** ** Blank strings and [clean_block] *)

Section BlankLines.

Lemma lstrip_nil_iff : forall s, lstrip s = [] <-> forallb isspace s = true.
Proof.
  unfold lstrip. induction s as [|c s IH]; simpl; [tauto|].
  destruct (isspace c); simpl; [exact IH|].
  split; intro H; discriminate.
Qed.

Lemma lstrip_head : forall s x r, lstrip s = x :: r -> isspace x = false.
Proof.
  unfold lstrip. induction s as [|c s IH]; simpl; intros x r H; [discriminate|].
  destruct (isspace c) eqn:E; [eapply IH; eassumption|].
  inversion H; subst. exact E.
Qed.

Lemma lstrip_snoc : forall l x, isspace x = false -> lstrip (l ++ [x]) <> [].
Proof.
  unfold lstrip. induction l as [|c l IH]; intros x H; simpl.
  - rewrite H. discriminate.
  - destruct (isspace c); [apply IH; assumption|discriminate].
Qed.

Lemma truthy_strip : forall s, truthy (strip s) = negb (forallb isspace s).
Proof.
  intro s. destruct (forallb isspace s) eqn:E; simpl.
  - apply lstrip_nil_iff in E. unfold strip, rstrip. rewrite E. reflexivity.
  - apply truthy_true. unfold strip, rstrip.
    destruct (lstrip s) as [|x r] eqn:L.
    + apply lstrip_nil_iff in L. congruence.
    + apply lstrip_head in L. simpl.
      intro H. apply (f_equal (@rev char)) in H. rewrite rev_involutive in H.
      simpl in H. revert H. apply lstrip_snoc. exact L.
Qed.

Lemma blank_line_spec : forall l, TextAssembler.blank_line l = forallb isspace l.
Proof.
  intro l. unfold TextAssembler.blank_line. rewrite truthy_strip.
  apply negb_involutive.
Qed.

Lemma join_head_space : forall sep h rest,
  forallb isspace (join sep (h :: rest)) = true -> forallb isspace h = true.
Proof.
  intros sep h [|x rest] H; simpl in H; [exact H|].
  rewrite forallb_app in H. apply andb_true_iff in H as [H _]. exact H.
Qed.

Import TextAssembler.

Lemma drop_blank_head : forall ls h r, drop_blank ls = h :: r -> blank_line h = false.
Proof.
  induction ls as [|l ls IH]; simpl; intros h r H; [discriminate|].
  destruct (blank_line l) eqn:E; [eapply IH; eassumption|].
  inversion H; subst. exact E.
Qed.

Lemma drop_blank_snoc : forall ls h,
  blank_line h = false -> exists x, drop_blank (ls ++ [h]) = x ++ [h].
Proof.
  induction ls as [|l ls IH]; intros h H; simpl.
  - rewrite H. exists []. reflexivity.
  - destruct (blank_line l); [apply IH; assumption|].
    exists (l :: ls). reflexivity.
Qed.

(** The lines that [clean_block] joins: none, or a first line that is not
    blank. *)
Lemma clean_block_lines : forall ls,
  rev (drop_blank (rev (drop_blank ls))) = []
  \/ exists h r, rev (drop_blank (rev (drop_blank ls))) = h :: r
                 /\ blank_line h = false.
Proof.
  intro ls. destruct (drop_blank ls) as [|h r] eqn:E.
  - left. reflexivity.
  - right. pose proof (@drop_blank_head ls h r E) as Hh. simpl.
    destruct (@drop_blank_snoc (rev r) h Hh) as [x Hx]. rewrite Hx.
    rewrite rev_app_distr. simpl. eauto.
Qed.

(** A block that [clean_block] returns is blank only when it is empty. *)
Lemma clean_block_truthy : forall block_text,
  truthy (strip (clean_block block_text)) = truthy (clean_block block_text).
Proof.
  intro s. unfold clean_block.
  destruct (clean_block_lines (collapse_blank false (split_nl s)))
    as [E|[h [r [E Hh]]]]; rewrite E.
  - reflexivity.
  - rewrite truthy_strip. rewrite blank_line_spec in Hh.
    destruct (forallb isspace (join [NL] (h :: r))) eqn:F.
    + apply join_head_space in F. congruence.
    + cbn [negb]. symmetry. apply truthy_true.
      intro J. rewrite J in F. discriminate.
Qed.

End BlankLines.

(** ** C2 and C8: the blocks of the result *)

Section Blocks.
Context {U : Unicode}.
Import TextAssembler.

(** [itertools.takewhile]-like prefix, used to name the pages before the
    first titled page. *)
Fixpoint take_while (p : Z -> bool) (l : list Z) : list Z :=
  match l with
  | n :: rest => if p n then n :: take_while p rest else []
  | [] => []
  end.

Definition untitled (pm : PageMap) (n : Z) : bool := negb (truthy (norm_title pm n)).

Lemma take_while_split : forall p sec rest,
  Forall (fun n => p n = true) sec ->
  match rest with [] => True | n :: _ => p n = false end ->
  take_while p (sec ++ rest) = sec.
Proof.
  intros p. induction sec as [|n sec IH]; intros rest Hs Hr; simpl.
  - destruct rest as [|n rest]; [reflexivity|]. simpl. rewrite Hr. reflexivity.
  - inversion Hs as [|? ? Hn Hrest]; subst. rewrite Hn. f_equal.
    apply IH; assumption.
Qed.

Lemma section_is_prefix : forall pm sec products,
  sec ++ List.concat (map page_numbers products) = sorted (keys pm) ->
  Forall (fun n => norm_title pm n = []) sec ->
  Forall (product_run pm) products ->
  sec = take_while (untitled pm) (sorted (keys pm)).
Proof.
  intros pm sec products Hp Hs Hr. rewrite <- Hp. symmetry.
  apply take_while_split.
  - eapply Forall_impl; [|exact Hs]. intros n Hn. unfold untitled.
    rewrite Hn. reflexivity.
  - destruct products as [|b bs]; [exact I|].
    inversion Hr as [|? ? Hb _]; subst.
    destruct Hb as [_ [Ha [first [others [Hpn [Hf _]]]]]].
    simpl. rewrite Hpn. simpl. unfold untitled. rewrite Hf.
    apply truthy_true in Ha. rewrite Ha. reflexivity.
Qed.

(** C2.  The assembler never fails.  Its product blocks cut the page
    numbers, taken in ascending order, into consecutive runs that come
    after the section pages: the section pages carry no title; the first
    page of a product block carries its title, which is not empty, and
    every further page of the block carries the same title or none; two
    neighbouring blocks have different titles; the last run is closed
    into a block like the others.  So for two consecutive pages with
    non-empty normalized titles: when the titles are equal the two pages
    are neighbours inside one block; when they differ the first is the
    last page of one block and the second the first page of the next
    block. *)
Theorem assemble_title_state_machine : forall pm : PageMap,
  exists blocks sec products,
    assemble_blocks pm = Some blocks
    /\ assemble_by_title_anchors pm = Some (map text blocks)
    /\ StronglySorted Z.le (sorted (keys pm))
    /\ sec ++ List.concat (map page_numbers products) = sorted (keys pm)
    /\ Forall (fun n => norm_title pm n = []) sec
    /\ Forall (product_run pm) products
    /\ adjacent_differ (map anchor products)
    /\ (blocks = products
        \/ exists section_text,
             blocks = mkBlock SectionBlock [] sec section_text :: products)
    /\ forall before p q after,
         sorted (keys pm) = before ++ p :: q :: after ->
         norm_title pm p <> [] -> norm_title pm q <> [] ->
         (norm_title pm p = norm_title pm q ->
          exists bs1 b bs2 x y,
            products = bs1 ++ b :: bs2 /\ page_numbers b = x ++ p :: q :: y)
         /\ (norm_title pm p <> norm_title pm q ->
             exists bs1 b1 b2 bs2 x y,
               products = bs1 ++ b1 :: b2 :: bs2
               /\ page_numbers b1 = x ++ [p] /\ page_numbers b2 = q :: y).
Proof.
  intro pm.
  destruct (assemble_blocks_structure pm)
    as [lookup [sec [products [stext [Hl [Hp [Hs [Hr [Hrd [Ha [Hsec Hb]]]]]]]]]]].
  exists ((if truthy (strip stext) then [mkBlock SectionBlock [] sec stext] else [])
          ++ products), sec, products.
  split; [exact Hb|].
  split; [unfold assemble_by_title_anchors; rewrite Hb; reflexivity|].
  split; [apply sorted_ascending|]. split; [exact Hp|]. split; [exact Hs|].
  split; [exact Hr|]. split; [exact Ha|].
  split.
  { destruct (truthy (strip stext)); [right; exists stext|left]; reflexivity. }
  intros before p q after Hsplit Htp Htq.
  assert (Hne : Forall (fun b => page_numbers b <> []) products).
  { eapply Forall_impl; [|exact Hr]. intros b. apply run_nonempty. }
  (* the two pages are not section pages: they are neighbours in the runs *)
  assert (Hruns : exists before', List.concat (map page_numbers products)
                                  = before' ++ p :: q :: after).
  { rewrite <- Hp in Hsplit.
    apply app_eq_app in Hsplit as [l [[H1 H2]|[H1 H2]]].
    - rewrite Forall_forall in Hs.
      destruct l as [|a l]; [exists []; simpl in H2; auto|].
      simpl in H2. inversion H2; subst a. exfalso. apply Htp. apply Hs.
      rewrite H1. apply in_or_app. right. left. reflexivity.
    - exists l. exact H2. }
  destruct Hruns as [before' Hruns].
  rewrite Forall_forall in Hr.
  destruct (@adjacent_in_runs products before' p q after Hne Hruns)
    as [[bs1 [b [bs2 [x [y [E1 E2]]]]]]
       |[bs1 [b1 [b2 [bs2 [x [y [E1 [E2 E3]]]]]]]]].
  - (* neighbours inside the block [b]: both titles are the block's *)
    assert (Hin : In b products) by (rewrite E1; apply in_or_app; right; left; reflexivity).
    destruct (Hr b Hin) as [_ [_ Hrun]].
    assert (Ep : norm_title pm p = anchor b).
    { apply (@run_title_of_member pm _ _ _ Hrun); [|assumption].
      rewrite E2. apply in_or_app. right. left. reflexivity. }
    assert (Eq : norm_title pm q = anchor b).
    { apply (@run_title_of_member pm _ _ _ Hrun); [|assumption].
      rewrite E2. apply in_or_app. right. right. left. reflexivity. }
    split; [intros _; exists bs1, b, bs2, x, y; auto|].
    intro Hd. congruence.
  - (* the last page of [b1] and the first page of [b2] *)
    assert (Hin1 : In b1 products) by (rewrite E1; apply in_or_app; right; left; reflexivity).
    assert (Hin2 : In b2 products)
      by (rewrite E1; apply in_or_app; right; right; left; reflexivity).
    destruct (Hr b1 Hin1) as [_ [_ Hrun1]].
    destruct (Hr b2 Hin2) as [_ [_ Hrun2]].
    assert (Ep : norm_title pm p = anchor b1).
    { apply (@run_title_of_member pm _ _ _ Hrun1); [|assumption].
      rewrite E2. apply in_or_app. right. left. reflexivity. }
    assert (Eq : norm_title pm q = anchor b2).
    { apply (@run_title_of_member pm _ _ _ Hrun2); [|assumption].
      rewrite E3. left. reflexivity. }
    assert (Hd : anchor b1 <> anchor b2).
    { rewrite E1 in Ha. rewrite map_app in Ha. simpl in Ha.
      eapply adjacent_differ_middle; eassumption. }
    split; [intro He; congruence|].
    intros _. exists bs1, b1, b2, bs2, x, y. auto.
Qed.

(** C8.  The result holds at most one section block: every block but a
    possible first one is a product.  The section pages are the pages
    that come, in ascending order, before the first page with a non-empty
    normalized title; the section block is the first block of the result
    exactly when the text rendered for these pages is not empty, and
    otherwise the section adds no block (an empty text and a blank text
    are the same for a rendered section). *)
Theorem section_block_first_when_nonempty : forall pm : PageMap,
  exists blocks products section_text,
    assemble_blocks pm = Some blocks
    /\ _create_section_block (take_while (untitled pm) (sorted (keys pm))) pm
       = Some section_text
    /\ Forall (fun b => kind b = Product) products
    /\ truthy (strip section_text) = truthy section_text
    /\ blocks
       = (if truthy section_text
          then [mkBlock SectionBlock []
                        (take_while (untitled pm) (sorted (keys pm))) section_text]
          else [])
         ++ products.
Proof.
  intro pm.
  destruct (assemble_blocks_structure pm)
    as [lookup [sec [products [stext [Hl [Hp [Hs [Hr [Hrd [Ha [Hsec Hb]]]]]]]]]]].
  pose proof (@section_is_prefix pm sec products Hp Hs Hr) as Esec.
  assert (Ht : truthy (strip stext) = truthy stext).
  { unfold _create_section_block in Hsec.
    destruct (section_texts pm sec) as [texts|]; simpl in Hsec; [|discriminate].
    inversion Hsec; subst stext. apply clean_block_truthy. }
  rewrite <- Esec.
  eexists _, products, stext.
  split; [exact Hb|]. split; [exact Hsec|].
  split; [eapply Forall_impl; [|exact Hr]; intros b Hbk; exact (proj1 Hbk)|].
  split; [exact Ht|].
  rewrite Ht. reflexivity.
Qed.

End Blocks.

(** ** C9: the text of a product block *)

Section BlockText.
Context {U : Unicode}.
Import TextAssembler.

Definition nonblank (line : str) : bool := negb (blank_line line).

Definition no_nl (line : str) : Prop := Forall (fun c => c <> NL) line.

Fixpoint no_adjacent_blank (lines : list str) : Prop :=
  match lines with
  | a :: rest =>
      match rest with
      | b :: _ => blank_line a = false \/ blank_line b = false
      | [] => True
      end /\ no_adjacent_blank rest
  | [] => True
  end.


Lemma split_nl_no_nl : forall s, Forall no_nl (split_nl s).
Proof.
  induction s as [|c s IH]; simpl.
  - repeat constructor.
  - destruct (N.eqb_spec c NL) as [E|E].
    + constructor; [constructor|exact IH].
    + destruct (split_nl s) as [|l ls]; [repeat constructor; assumption|].
      inversion IH; subst. constructor; [constructor; assumption|assumption].
Qed.

Lemma split_nl_line : forall h, no_nl h -> split_nl h = [h].
Proof.
  induction h as [|c h IH]; intros H; simpl; [reflexivity|].
  inversion H as [|? ? Hc Hh]; subst.
  destruct (N.eqb_spec c NL) as [E|E]; [contradiction|].
  rewrite (IH Hh). reflexivity.
Qed.

Lemma split_nl_app_nl : forall h rest,
  no_nl h -> split_nl (h ++ NL :: rest) = h :: split_nl rest.
Proof.
  induction h as [|c h IH]; intros rest H; simpl.
  - reflexivity.
  - inversion H as [|? ? Hc Hh]; subst.
    destruct (N.eqb_spec c NL) as [E|E]; [contradiction|].
    rewrite (IH rest Hh). reflexivity.
Qed.

Lemma split_nl_join : forall h r,
  Forall no_nl (h :: r) -> split_nl (join [NL] (h :: r)) = h :: r.
Proof.
  intros h r. revert h. induction r as [|x r IH]; intros h H.
  - inversion H; subst. simpl. apply split_nl_line. assumption.
  - inversion H as [|? ? Hh Hr]; subst.
    change (join [NL] (h :: x :: r)) with (h ++ NL :: join [NL] (x :: r)).
    rewrite split_nl_app_nl by assumption. rewrite (IH x Hr). reflexivity.
Qed.

Lemma collapse_blank_no_nl : forall ls f,
  Forall no_nl ls -> Forall no_nl (collapse_blank f ls).
Proof.
  induction ls as [|l ls IH]; intros f H; simpl; [constructor|].
  inversion H as [|? ? Hl Hls]; subst.
  destruct (blank_line l).
  - destruct f; simpl; [apply IH; assumption|].
    constructor; [constructor|apply IH; assumption].
  - constructor; [assumption|apply IH; assumption].
Qed.

Lemma blank_line_nil : blank_line [] = true.
Proof. reflexivity. Qed.

Lemma collapse_blank_filter : forall ls f,
  filter nonblank (collapse_blank f ls) = filter nonblank ls.
Proof.
  induction ls as [|l ls IH]; intros f; simpl; [reflexivity|].
  unfold nonblank at 2. destruct (blank_line l) eqn:E; simpl.
  - destruct f; simpl; apply IH.
  - unfold nonblank at 1. rewrite E. simpl. f_equal. apply IH.
Qed.

Lemma collapse_blank_adjacent : forall ls f,
  no_adjacent_blank (collapse_blank f ls)
  /\ (f = true -> match collapse_blank f ls with
                  | h :: _ => blank_line h = false
                  | [] => True
                  end).
Proof.
  induction ls as [|l ls IH]; intros f; simpl; [auto|].
  destruct (blank_line l) eqn:E.
  - destruct (IH true) as [H1 H2]. specialize (H2 eq_refl).
    destruct f; simpl; [split; [assumption|intros _; exact H2]|].
    split; [|discriminate]. split; [|assumption].
    destruct (collapse_blank true ls); [exact I|right; assumption].
  - destruct (IH false) as [H1 _]. split; [|intros _; exact E].
    split; [|assumption].
    destruct (collapse_blank false ls); [exact I|left; assumption].
Qed.

Lemma collapse_blank_empty : forall ls f,
  Forall (fun l => blank_line l = true -> l = []) (collapse_blank f ls).
Proof.
  induction ls as [|l ls IH]; intros f; simpl; [constructor|].
  destruct (blank_line l) eqn:E.
  - destruct f; simpl; [apply IH|]. constructor; [reflexivity|apply IH].
  - constructor; [congruence|apply IH].
Qed.

Lemma drop_blank_suffix : forall ls,
  exists pre, ls = pre ++ drop_blank ls /\ Forall (fun l => blank_line l = true) pre.
Proof.
  induction ls as [|l ls IH]; simpl.
  - exists []. auto.
  - destruct (blank_line l) eqn:E.
    + destruct IH as [pre [H1 H2]]. exists (l :: pre). split.
      * simpl. f_equal. exact H1.
      * constructor; assumption.
    + exists []. auto.
Qed.

Lemma no_adjacent_blank_app_r : forall l1 l2,
  no_adjacent_blank (l1 ++ l2) -> no_adjacent_blank l2.
Proof.
  induction l1 as [|a l1 IH]; intros l2 H; simpl in H; [exact H|].
  apply IH. exact (proj2 H).
Qed.

Lemma no_adjacent_blank_app_l : forall l1 l2,
  no_adjacent_blank (l1 ++ l2) -> no_adjacent_blank l1.
Proof.
  induction l1 as [|a l1 IH]; intros l2 H; simpl in *; [exact I|].
  destruct H as [H1 H2]. split; [|eapply IH; eassumption].
  destruct l1; simpl in *; [exact I|assumption].
Qed.

Lemma filter_all_blank : forall ls,
  Forall (fun l => blank_line l = true) ls -> filter nonblank ls = [].
Proof.
  induction 1 as [|l ls Hl _ IH]; simpl; [reflexivity|].
  unfold nonblank at 1. rewrite Hl. simpl. exact IH.
Qed.

(** What [clean_block] returns: the lines of the input that are not
    blank, in order, with one empty line kept for every run of blank lines
    between two of them. *)
Lemma clean_block_normalized : forall block_text,
  exists lines,
    clean_block block_text = join [NL] lines
    /\ Forall no_nl lines
    /\ no_adjacent_blank lines
    /\ Forall (fun l => blank_line l = true -> l = []) lines
    /\ (forall h, hd_error lines = Some h -> blank_line h = false)
    /\ (forall h, hd_error (rev lines) = Some h -> blank_line h = false)
    /\ filter nonblank lines = filter nonblank (split_nl block_text).
Proof.
  intro s. unfold clean_block.
  set (C := collapse_blank false (split_nl s)).
  destruct (drop_blank_suffix C) as [pre [Hpre Bpre]].
  destruct (drop_blank_suffix (rev (drop_blank C))) as [post [Hpost Bpost]].
  set (L := rev (drop_blank (rev (drop_blank C)))) in *.
  assert (HL : drop_blank C = L ++ rev post).
  { apply (f_equal (@rev str)) in Hpost. rewrite rev_involutive in Hpost.
    rewrite Hpost. rewrite rev_app_distr. reflexivity. }
  assert (HC : C = pre ++ L ++ rev post) by (rewrite <- HL; exact Hpre).
  assert (Nc : Forall no_nl C) by (apply collapse_blank_no_nl, split_nl_no_nl).
  assert (Ac : no_adjacent_blank C) by (apply collapse_blank_adjacent).
  assert (Ec : Forall (fun l => blank_line l = true -> l = []) C)
    by (apply collapse_blank_empty).
  exists L. split; [reflexivity|].
  rewrite HC in Nc, Ac, Ec.
  split; [|split; [|split; [|split; [|split]]]].
  - apply Forall_app in Nc as [_ Nc]. apply Forall_app in Nc as [Nc _]. exact Nc.
  - apply no_adjacent_blank_app_r in Ac. apply no_adjacent_blank_app_l in Ac. exact Ac.
  - apply Forall_app in Ec as [_ Ec]. apply Forall_app in Ec as [Ec _]. exact Ec.
  - intros h Hh. destruct (clean_block_lines C) as [E|[h' [r [E Hb]]]];
      fold L in E; rewrite E in Hh; simpl in Hh; [discriminate|].
    inversion Hh; subst. exact Hb.
  - intros h Hh. unfold L in Hh. rewrite rev_involutive in Hh.
    destruct (drop_blank (rev (drop_blank C))) as [|h' r] eqn:E;
      simpl in Hh; [discriminate|].
    inversion Hh; subst. eapply drop_blank_head; eassumption.
  - rewrite <- (collapse_blank_filter (split_nl s) false). fold C. rewrite HC.
    rewrite !filter_app. rewrite (filter_all_blank Bpre).
    rewrite (@filter_all_blank (rev post)).
    + rewrite app_nil_r. reflexivity.
    + apply Forall_rev. exact Bpost.
Qed.

End BlockText.

Section ProductBlock.
Context {U : Unicode}.
Import TextAssembler.

Definition has_body (t : str) : bool := truthy (strip t).



Lemma nonblank_line_exists : forall s,
  forallb isspace s = false -> filter nonblank (split_nl s) <> [].
Proof.
  induction s as [|c s IH]; simpl; intro H; [discriminate|].
  destruct (N.eqb_spec c NL) as [E|E].
  - subst c. simpl in H. simpl. apply IH. exact H.
  - destruct (split_nl s) as [|l ls] eqn:Es.
    + exfalso. eapply split_nl_nonempty; eassumption.
    + simpl. unfold nonblank at 1. rewrite blank_line_spec. simpl.
      destruct (isspace c) eqn:Ec; simpl; [|discriminate].
      simpl in H. specialize (IH H). simpl in IH.
      unfold nonblank at 1 in IH. rewrite blank_line_spec in IH.
      destruct (forallb isspace l); simpl in *; [exact IH|discriminate].
Qed.

Lemma clean_block_has_body : forall s,
  forallb isspace s = false -> has_body (clean_block s) = true.
Proof.
  intros s H. unfold has_body. rewrite clean_block_truthy.
  destruct (clean_block_normalized s) as [lines [E [_ [_ [_ [Hh [_ Hf]]]]]]].
  rewrite E. pose proof (nonblank_line_exists s H) as Hne. rewrite <- Hf in Hne.
  destruct lines as [|h r]; [contradiction|].
  specialize (Hh h eq_refl). rewrite blank_line_spec in Hh.
  apply truthy_true. intro J.
  destruct h as [|c h]; [discriminate|].
  destruct r; simpl in J; discriminate.
Qed.


End ProductBlock.




(** The composition is read from the first page whose text is not blank:
    when the first page of the block has a blank text its composition is
    not used. *)
Example composition_of_blank_first_page :
  TextAssembler._create_product_block [] (u"Крем")
    [1%Z; 2%Z]
    [ (1%Z, mkPage [SP] (u"Крем") (u"Крем") (u"Aqua"));
      (2%Z, mkPage (u"текст") [] [] []) ]
  = Some (u"Крем" ++ [NL; NL] ++ u"текст").
Proof. vm_compute. reflexivity. Qed.

(** ** What a match consumes *)

Section MatcherSound.
Context {U : Unicode}.

(** The words of a pattern, anchors read as the empty word. *)
Fixpoint lang (ic : bool) (r : re) (w : str) : Prop :=
  match r with
  | Eps | Bol | Eol | Wb => w = []
  | One a => exists c, w = [c] /\ atom_ok ic a c = true
  | Star a => Forall (fun c => atom_ok ic a c = true) w
  | Plus a | PlusLazy a => w <> [] /\ Forall (fun c => atom_ok ic a c = true) w
  | Opt a => w = [] \/ exists c, w = [c] /\ atom_ok ic a c = true
  | Cat r1 r2 => exists w1 w2, w = w1 ++ w2 /\ lang ic r1 w1 /\ lang ic r2 w2
  | Or r1 r2 => lang ic r1 w \/ lang ic r2 w
  | Grp _ r1 => lang ic r1 w
  end.

Lemma star_greedy_sound : forall (A : Type) p s prev (k : option char -> str -> option A) a,
  star_greedy p prev s k = Some a ->
  exists w s' p', s = w ++ s' /\ Forall (fun c => p c = true) w /\ k p' s' = Some a.
Proof.
  intros A p. induction s as [|c s IH]; intros prev k a H; simpl in H.
  - exists [], [], prev. auto.
  - destruct (p c) eqn:Pc.
    + unfold orelse in H.
      destruct (star_greedy p (Some c) s k) as [a'|] eqn:E.
      * inversion H; subst a'.
        destruct (IH _ _ _ E) as [w [s' [p' [H1 [H2 H3]]]]].
        exists (c :: w), s', p'. subst s. repeat split; auto.
      * exists [], (c :: s), prev. auto.
    + exists [], (c :: s), prev. auto.
Qed.

Lemma star_lazy_sound : forall (A : Type) p s prev (k : option char -> str -> option A) a,
  star_lazy p prev s k = Some a ->
  exists w s' p', s = w ++ s' /\ Forall (fun c => p c = true) w /\ k p' s' = Some a.
Proof.
  intros A p. induction s as [|c s IH]; intros prev k a H; simpl in H.
  - destruct (k prev []) eqn:E; [|discriminate].
    inversion H; subst. exists [], [], prev. auto.
  - destruct (k prev (c :: s)) eqn:E.
    + inversion H; subst. exists [], (c :: s), prev. auto.
    + destruct (p c) eqn:Pc; [|discriminate].
      destruct (IH _ _ _ H) as [w [s' [p' [H1 [H2 H3]]]]].
      exists (c :: w), s', p'. subst s. repeat split; auto.
Qed.

Lemma one_char_sound : forall (A : Type) p s (k : option char -> str -> option A) a,
  one_char p s k = Some a ->
  exists c s', s = c :: s' /\ p c = true /\ k (Some c) s' = Some a.
Proof.
  intros A p [|c s] k a H; simpl in H; [discriminate|].
  destruct (p c) eqn:Pc; [|discriminate]. exists c, s. auto.
Qed.

Lemma run_sound : forall (A : Type) ic ml r prev s caps
                         (k : option char -> str -> list (nat * str) -> option A) a,
  run ic ml r prev s caps k = Some a ->
  exists w s' p' c', s = w ++ s' /\ lang ic r w /\ k p' s' c' = Some a.
Proof.
  intros A ic ml. induction r as [|x|x|x|x|x|r1 IH1 r2 IH2|r1 IH1 r2 IH2|n r1 IH1| | |];
    intros prev s caps k a H; simpl in H.
  - exists [], s, prev, caps. simpl. auto.
  - apply one_char_sound in H as [c [s' [H1 [H2 H3]]]].
    exists [c], s', (Some c), caps. subst s. simpl. eauto.
  - apply star_greedy_sound in H as [w [s' [p' [H1 [H2 H3]]]]].
    exists w, s', p', caps. simpl. auto.
  - apply one_char_sound in H as [c [s1 [H1 [H2 H3]]]].
    apply star_greedy_sound in H3 as [w [s' [p' [H4 [H5 H6]]]]].
    exists (c :: w), s', p', caps. subst s s1. simpl.
    split; [reflexivity|]. split; [|assumption]. split; [discriminate|].
    constructor; assumption.
  - apply one_char_sound in H as [c [s1 [H1 [H2 H3]]]].
    apply star_lazy_sound in H3 as [w [s' [p' [H4 [H5 H6]]]]].
    exists (c :: w), s', p', caps. subst s s1. simpl.
    split; [reflexivity|]. split; [|assumption]. split; [discriminate|].
    constructor; assumption.
  - unfold orelse in H.
    destruct (one_char (atom_ok ic x) s (fun p' s' => k p' s' caps)) as [a'|] eqn:E.
    + inversion H; subst a'.
      apply one_char_sound in E as [c [s' [H1 [H2 H3]]]].
      exists [c], s', (Some c), caps. subst s. simpl.
      split; [reflexivity|]. split; [right; exists c; auto|assumption].
    + exists [], s, prev, caps. simpl. auto.
  - apply IH1 in H as [w1 [s1 [p1 [c1 [H1 [H2 H3]]]]]].
    apply IH2 in H3 as [w2 [s2 [p2 [c2 [H4 [H5 H6]]]]]].
    exists (w1 ++ w2), s2, p2, c2. subst s s1. rewrite app_assoc.
    split; [reflexivity|]. split; [|assumption]. simpl. eauto.
  - unfold orelse in H.
    destruct (run ic ml r1 prev s caps k) as [a'|] eqn:E.
    + inversion H; subst a'.
      apply IH1 in E as [w [s' [p' [c' [H1 [H2 H3]]]]]].
      exists w, s', p', c'. simpl. auto.
    + apply IH2 in H as [w [s' [p' [c' [H1 [H2 H3]]]]]].
      exists w, s', p', c'. simpl. auto.
  - apply IH1 in H as [w [s' [p' [c' [H1 [H2 H3]]]]]].
    exists w, s', p', ((n, firstn (length s - length s') s) :: c'). simpl. auto.
  - destruct (at_bol ml prev); [|discriminate]. exists [], s, prev, caps. simpl. auto.
  - destruct (at_eol ml s); [|discriminate]. exists [], s, prev, caps. simpl. auto.
  - destruct (at_wb prev s); [|discriminate]. exists [], s, prev, caps. simpl. auto.
Qed.



End MatcherSound.

(** ** C7: de-hyphenation *)

Section Hyphenation.
Context {U : Unicode}.
Import TextCleaner.

Definition HYPHEN : char := 45%N.








Lemma space_atom : forall ic x, atom_ok ic ws x = true -> isspace x = true.
Proof.
  intros ic x H. unfold atom_ok, ws in H. simpl in H.
  rewrite orb_false_r in H. exact H.
Qed.

Lemma hyphen_atom : forall ic c, atom_ok ic (Lit (chr "-")) c = true -> c = HYPHEN.
Proof.
  intros ic c H. change (chr "-") with HYPHEN in H. simpl in H.
  destruct ic.
  - apply ci_lit_uncased in H; [exact H|reflexivity].
  - apply N.eqb_eq in H. exact H.
Qed.

Lemma newline_atom : forall ic c, atom_ok ic (Lit NL) c = true -> c = NL.
Proof.
  intros ic c H. simpl in H. destruct ic.
  - apply ci_lit_uncased in H; [exact H|reflexivity].
  - apply N.eqb_eq in H. exact H.
Qed.






Lemma firstn_consumed : forall (w r : str),
  firstn (length (w ++ r) - length r) (w ++ r) = w.
Proof.
  intros w r. rewrite length_app.
  replace (length w + length r - length r)%nat with (length w + 0)%nat by lia.
  rewrite firstn_app_2. simpl. apply app_nil_r.
Qed.








End Hyphenation.




(** ** C1: what the quality control reports *)

Section QualityControl.
Context {U : Unicode}.
Import QualityController.





End QualityControl.

Section Pipeline.
Context {U : Unicode}.


End Pipeline.





(** * Further properties of the cleaner and the assembler *)

Unset Implicit Arguments.

(** ** More about [strip] *)

Section StripFacts.

Lemma lstrip_fixed : forall x r, isspace x = false -> lstrip (x :: r) = x :: r.
Proof. intros x r H. unfold lstrip. simpl. rewrite H. reflexivity. Qed.

Lemma lstrip_snoc_keep : forall l x,
  isspace x = false -> exists y, lstrip (l ++ [x]) = y ++ [x].
Proof.
  unfold lstrip. induction l as [|c l IH]; intros x H; simpl.
  - rewrite H. exists []. reflexivity.
  - destruct (isspace c); [apply IH; assumption|].
    exists (c :: l). reflexivity.
Qed.

(** A stripped string is empty, or begins and ends with a character that
    is not whitespace. *)
Lemma strip_ends : forall s,
  strip s = []
  \/ ((exists x t, strip s = x :: t /\ isspace x = false)
      /\ (exists t y, strip s = t ++ [y] /\ isspace y = false)).
Proof.
  intro s. unfold strip, rstrip.
  destruct (lstrip s) as [|x r] eqn:L; [left; reflexivity|].
  right. pose proof (@lstrip_head s x r L) as Hx. simpl.
  destruct (lstrip_snoc_keep (rev r) x Hx) as [y Hy]. split.
  - rewrite Hy. rewrite rev_app_distr. simpl. eauto.
  - destruct (lstrip (rev r ++ [x])) as [|h q] eqn:Lh.
    + destruct y; discriminate.
    + exists (rev q), h. split; [reflexivity|]. eapply lstrip_head; eassumption.
Qed.

Lemma rstrip_fixed : forall s y, isspace y = false -> rstrip (s ++ [y]) = s ++ [y].
Proof.
  intros s y H. unfold rstrip. rewrite rev_app_distr. simpl.
  rewrite (lstrip_fixed y (rev s) H).
  change (y :: rev s) with ([y] ++ rev s). rewrite rev_app_distr.
  rewrite rev_involutive. reflexivity.
Qed.

(** [strip] changes nothing on a string that begins and ends with a
    character that is not whitespace. *)
Lemma strip_fixed : forall s x t t' y,
  s = x :: t -> isspace x = false ->
  s = t' ++ [y] -> isspace y = false ->
  strip s = s.
Proof.
  intros s x t t' y E1 Hx E2 Hy. unfold strip.
  rewrite E1. rewrite (lstrip_fixed x t Hx). rewrite <- E1. rewrite E2.
  apply rstrip_fixed. exact Hy.
Qed.

Lemma strip_idempotent : forall s, strip (strip s) = strip s.
Proof.
  intro s. destruct (strip_ends s) as [E|[[x [t [E1 Hx]]] [t' [y [E2 Hy]]]]].
  - rewrite E. reflexivity.
  - eapply strip_fixed; eassumption.
Qed.

End StripFacts.

(** ** [clean_block] is a normal form *)

Section CleanBlockNormalForm.
Import TextAssembler.

Lemma collapse_blank_fixed : forall ls f,
  no_adjacent_blank ls ->
  Forall (fun l => blank_line l = true -> l = []) ls ->
  (f = true -> match ls with h :: _ => blank_line h = false | [] => True end) ->
  collapse_blank f ls = ls.
Proof.
  induction ls as [|l ls IH]; intros f Ha He Hf; simpl; [reflexivity|].
  inversion He as [|? ? Hl Hls]; subst. simpl in Ha. destruct Ha as [Ha1 Ha2].
  destruct (blank_line l) eqn:E.
  - destruct f; [specialize (Hf eq_refl); congruence|].
    rewrite (Hl eq_refl). simpl. f_equal.
    apply IH; try assumption. intros _.
    destruct ls as [|b ls']; [exact I|].
    destruct Ha1 as [H|H]; [congruence|exact H].
  - f_equal. apply IH; try assumption. discriminate.
Qed.

Lemma drop_blank_fixed : forall ls,
  match ls with h :: _ => blank_line h = false | [] => True end ->
  drop_blank ls = ls.
Proof.
  intros [|h r] H; simpl; [reflexivity|]. rewrite H. reflexivity.
Qed.

Lemma clean_lines_fixed : forall lines,
  no_adjacent_blank lines ->
  Forall (fun l => blank_line l = true -> l = []) lines ->
  (forall h, hd_error lines = Some h -> blank_line h = false) ->
  (forall h, hd_error (rev lines) = Some h -> blank_line h = false) ->
  rev (drop_blank (rev (drop_blank (collapse_blank false lines)))) = lines.
Proof.
  intros lines Ha He Hh Hl.
  rewrite collapse_blank_fixed; try assumption; [|discriminate].
  rewrite (drop_blank_fixed lines).
  - rewrite (drop_blank_fixed (rev lines)); [apply rev_involutive|].
    destruct (rev lines) as [|h r] eqn:E; [exact I|]. apply Hl. reflexivity.
  - destruct lines as [|h r]; [exact I|]. apply Hh. reflexivity.
Qed.

(** X1.  Cleaning a block that is already clean changes nothing. *)
Theorem clean_block_idempotent : forall block_text : str,
  clean_block (clean_block block_text) = clean_block block_text.
Proof.
  intro s.
  destruct (clean_block_normalized s)
    as [lines [E [Hn [Ha [He [Hh [Hl Hf]]]]]]].
  rewrite E. destruct lines as [|h r]; [reflexivity|].
  unfold clean_block at 1. rewrite (@split_nl_join h r Hn).
  rewrite clean_lines_fixed; try assumption. reflexivity.
Qed.

(** X2.  [clean_block] keeps every line that is not blank, unchanged and
    in order; in its result a blank line is empty, no two blank lines
    follow each other, and a result that is not empty neither begins nor
    ends with a blank line. *)
Theorem clean_block_keeps_lines : forall block_text : str,
  filter nonblank (split_nl (clean_block block_text))
  = filter nonblank (split_nl block_text)
  /\ (clean_block block_text = []
      \/ (no_adjacent_blank (split_nl (clean_block block_text))
          /\ Forall (fun l => blank_line l = true -> l = [])
                    (split_nl (clean_block block_text))
          /\ (exists h r, split_nl (clean_block block_text) = h :: r
                          /\ blank_line h = false)
          /\ (exists r z, split_nl (clean_block block_text) = r ++ [z]
                          /\ blank_line z = false))).
Proof.
  intro s.
  destruct (clean_block_normalized s)
    as [lines [E [Hn [Ha [He [Hh [Hl Hf]]]]]]].
  rewrite E. destruct lines as [|h r].
  - split; [|left; reflexivity]. simpl. simpl in Hf. exact Hf.
  - rewrite (@split_nl_join h r Hn). split; [exact Hf|]. right.
    split; [exact Ha|]. split; [exact He|]. split.
    + exists h, r. split; [reflexivity|]. apply Hh. reflexivity.
    + destruct (rev (h :: r)) as [|z q] eqn:Er.
      * apply (f_equal (@rev str)) in Er. rewrite rev_involutive in Er.
        discriminate.
      * exists (rev q), z. split.
        -- apply (f_equal (@rev str)) in Er. rewrite rev_involutive in Er.
           exact Er.
        -- apply Hl. reflexivity.
Qed.

End CleanBlockNormalForm.

(** ** [remove_page_numbers] *)

Section PageNumbers.
Context {U : Unicode}.
Import TextCleaner.

Definition kept_line (line : str) : bool := negb (is_page_number line).

Lemma filter_no_nl : forall (p : str -> bool) ls,
  Forall no_nl ls -> Forall no_nl (filter p ls).
Proof.
  intros p ls H. apply Forall_forall. intros l Hl.
  apply filter_In in Hl as [Hl _]. rewrite Forall_forall in H. apply H. exact Hl.
Qed.

Lemma filter_idempotent : forall (A : Type) (p : A -> bool) l,
  filter p (filter p l) = filter p l.
Proof.
  intros A p. induction l as [|a l IH]; simpl; [reflexivity|].
  destruct (p a) eqn:E; simpl; [rewrite E; f_equal|]; exact IH.
Qed.

Lemma empty_line_kept : is_page_number [] = false.
Proof. reflexivity. Qed.

(** X5.  Removing the page numbers twice removes nothing more; and as
    long as some line is kept, the lines of the result are exactly the
    lines of the text that are not page-number lines, in order. *)
Theorem remove_page_numbers_idempotent : forall text : str,
  remove_page_numbers (remove_page_numbers text) = remove_page_numbers text
  /\ (filter kept_line (split_nl text) <> [] ->
      split_nl (remove_page_numbers text) = filter kept_line (split_nl text)).
Proof.
  intro text. unfold remove_page_numbers. fold kept_line.
  assert (Hn : Forall no_nl (filter kept_line (split_nl text)))
    by (apply filter_no_nl, split_nl_no_nl).
  destruct (filter kept_line (split_nl text)) as [|h r] eqn:E.
  - split; [reflexivity|]. intro H. congruence.
  - rewrite (@split_nl_join h r Hn). split; [|reflexivity].
    rewrite <- E. rewrite filter_idempotent. reflexivity.
Qed.

End PageNumbers.

(** ** [merge_lines_in_sentences] changes whitespace only *)

Section MergeLines.
Context {U : Unicode}.
Import TextCleaner.

(** The characters of a text that are not whitespace, in order. *)
Definition ink (s : str) : str := filter (fun c => negb (isspace c)) s.

Lemma ink_app : forall a b, ink (a ++ b) = ink a ++ ink b.
Proof. intros a b. apply filter_app. Qed.

Lemma ink_rev : forall s, ink (rev s) = rev (ink s).
Proof.
  induction s as [|c s IH]; simpl; [reflexivity|].
  rewrite ink_app, IH. simpl. destruct (isspace c); simpl.
  - apply app_nil_r.
  - reflexivity.
Qed.

Lemma ink_lstrip : forall s, ink (lstrip s) = ink s.
Proof.
  unfold lstrip. induction s as [|c s IH]; simpl; [reflexivity|].
  destruct (isspace c) eqn:E; simpl; [exact IH|]. rewrite E. reflexivity.
Qed.

Lemma ink_rstrip : forall s, ink (rstrip s) = ink s.
Proof.
  intro s. unfold rstrip. rewrite ink_rev, ink_lstrip, ink_rev.
  apply rev_involutive.
Qed.

Lemma ink_strip : forall s, ink (strip s) = ink s.
Proof. intro s. unfold strip. rewrite ink_rstrip. apply ink_lstrip. Qed.

Lemma ink_join : forall ls, ink (join [NL] ls) = List.concat (map ink ls).
Proof.
  induction ls as [|l ls IH]; [reflexivity|].
  destruct ls as [|l2 ls].
  - simpl. symmetry. apply app_nil_r.
  - change (join [NL] (l :: l2 :: ls)) with (l ++ [NL] ++ join [NL] (l2 :: ls)).
    rewrite !ink_app, IH. reflexivity.
Qed.

Lemma ink_split : forall s, List.concat (map ink (split_nl s)) = ink s.
Proof.
  induction s as [|c s IH]; [reflexivity|].
  simpl split_nl. destruct (N.eqb_spec c NL) as [E|E].
  - subst c. simpl. exact IH.
  - destruct (split_nl s) as [|l ls]; simpl in *.
    + rewrite <- IH. destruct (isspace c); reflexivity.
    + rewrite <- IH. destruct (isspace c); reflexivity.
Qed.

Lemma ink_glue : forall a b, ink (glue a b) = ink a ++ ink b.
Proof.
  intros a b. unfold glue.
  destruct (truthy a && negb (endswith a [SP]) && negb (startswith b [SP])).
  - rewrite !ink_app. reflexivity.
  - rewrite ink_strip, !ink_app, ink_rstrip, ink_lstrip. reflexivity.
Qed.

Definition ink_of (absorbing : option str) : str :=
  match absorbing with Some current => ink current | None => [] end.

Lemma ink_cons : forall (l : str) (ls : list str),
  List.concat (map ink (l :: ls)) = ink l ++ List.concat (map ink ls).
Proof. reflexivity. Qed.

Lemma ink_merge_go : forall n lines absorbing,
  (length lines <= n)%nat ->
  List.concat (map ink (merge_go absorbing lines))
  = ink_of absorbing ++ List.concat (map ink lines).
Proof.
  induction n as [|n IH]; intros lines absorbing Hlen.
  - destruct lines; [|simpl in Hlen; lia].
    destruct absorbing; simpl; rewrite ?app_nil_r; reflexivity.
  - destruct lines as [|l rest].
    + destruct absorbing; simpl; rewrite ?app_nil_r; reflexivity.
    + simpl in Hlen.
      assert (Hrest : forall a, List.concat (map ink (merge_go a rest))
                                = ink_of a ++ List.concat (map ink rest))
        by (intro a; apply IH; lia).
      pose (outer := merge_go None (l :: rest)).
      assert (Houter : List.concat (map ink outer)
                       = ink l ++ List.concat (map ink rest)).
      { unfold outer. cbn [merge_go]. cbv zeta.
        destruct (truthy (strip l)) eqn:T; cbn [negb]; cbv iota.
        - destruct (ends_sentence (strip l));
            [rewrite ink_cons, Hrest, ink_strip; reflexivity|].
          destruct rest as [|l2 rest2];
            [rewrite ink_cons, ink_strip; reflexivity|].
          assert (Hkeep : List.concat (map ink (strip l :: merge_go None (l2 :: rest2)))
                          = ink l ++ List.concat (map ink (l2 :: rest2)))
            by (rewrite ink_cons, Hrest, ink_strip; reflexivity).
          destruct (negb (truthy (strip l2))); [exact Hkeep|].
          destruct (starts_upper (strip l2) && ends_clause (strip l)); [exact Hkeep|].
          destruct (starts_upper (strip l2) && negb (endswith (strip l) (u","))
                    && negb (starts_capital (strip l2))
                    && Nat.ltb (length (strip l)) 50); [exact Hkeep|].
          rewrite IH by (simpl in Hlen; lia).
          cbn [ink_of]. rewrite ink_cons, ink_glue, !ink_strip.
          rewrite <- app_assoc. reflexivity.
        - apply truthy_false in T.
          rewrite ink_cons, Hrest. cbn [ink_of].
          rewrite <- (ink_strip l), T. reflexivity. }
      destruct absorbing as [current|].
      * change (merge_go (Some current) (l :: rest)) with
          (let next_line := strip l in
           if negb (truthy next_line) then current :: outer
           else if ends_sentence next_line
           then (current ++ [SP] ++ next_line) :: merge_go None rest
           else if starts_upper next_line && Nat.ltb (length next_line) 50
           then current :: outer
           else merge_go (Some (current ++ [SP] ++ next_line)) rest).
        clearbody outer. cbv zeta. cbn [ink_of]. rewrite (ink_cons l rest).
        assert (Hglued : ink (current ++ [SP] ++ strip l) = ink current ++ ink l)
          by (rewrite !ink_app, ink_strip; reflexivity).
        destruct (negb (truthy (strip l))).
        { rewrite ink_cons, Houter. reflexivity. }
        destruct (ends_sentence (strip l)).
        { rewrite ink_cons, Hrest, Hglued. cbn [ink_of app].
          rewrite <- app_assoc. reflexivity. }
        destruct (starts_upper (strip l) && Nat.ltb (length (strip l)) 50).
        { rewrite ink_cons, Houter. reflexivity. }
        rewrite Hrest. cbn [ink_of]. rewrite Hglued, <- app_assoc. reflexivity.
      * exact Houter.
Qed.

Lemma ink_merge_lines : forall text : str,
  ink (merge_lines_in_sentences text) = ink text.
Proof.
  intro text. unfold merge_lines_in_sentences.
  rewrite ink_join. rewrite (ink_merge_go (length (split_nl text))) by lia.
  simpl. apply ink_split.
Qed.

(** X3.  Merging the lines of sentences adds and removes whitespace only:
    the characters that are not whitespace are those of the input, in the
    same order. *)
Theorem merge_lines_keeps_ink : forall text : str,
  ink (merge_lines_in_sentences text) = ink text.
Proof. exact ink_merge_lines. Qed.

Lemma merge_go_sentences : forall lines,
  Forall (fun l => strip l = [] \/ ends_sentence (strip l) = true) lines ->
  merge_go None lines = map strip lines.
Proof.
  induction lines as [|l rest IH]; intros H; [reflexivity|].
  inversion H as [|? ? Hl Hrest]; subst. specialize (IH Hrest).
  cbn [merge_go map]. cbv zeta.
  destruct Hl as [E|E].
  - rewrite E. simpl. rewrite IH. reflexivity.
  - destruct (truthy (strip l)) eqn:T; simpl negb; cbv iota.
    + rewrite E. rewrite IH. reflexivity.
    + apply truthy_false in T. rewrite T, IH. reflexivity.
Qed.

(** X4.  A text in which every line is blank or ends, once stripped, with
    a full stop, an exclamation mark or a question mark is only stripped
    line by line: no two lines are merged. *)
Theorem merge_lines_keeps_sentence_lines : forall text : str,
  Forall (fun l => strip l = [] \/ ends_sentence (strip l) = true) (split_nl text) ->
  merge_lines_in_sentences text = join [NL] (map strip (split_nl text)).
Proof.
  intros text H. unfold merge_lines_in_sentences.
  rewrite merge_go_sentences by exact H. reflexivity.
Qed.

End MergeLines.

Lemma merge_lines_keeps_sentence_lines_witness :
  TextCleaner.merge_lines_in_sentences
    (u"  Наносить утром.  " ++ [NL; SP; NL] ++ u"Смыть водой!" ++ [NL] ++ u"Готово?")
  = u"Наносить утром." ++ [NL; NL] ++ u"Смыть водой!" ++ [NL] ++ u"Готово?".
Proof.
  rewrite (@merge_lines_keeps_sentence_lines basic_unicode).
  - vm_compute. reflexivity.
  - vm_compute.
    repeat (apply Forall_cons; [first [left; reflexivity | right; reflexivity]|]).
    apply Forall_nil.
Defined.

(** ** What the assembler keeps *)

Section AssemblerKeeps.
Context {U : Unicode}.
Import TextAssembler.

Lemma split_nl_app : forall a b : str,
  split_nl (a ++ NL :: b) = split_nl a ++ split_nl b.
Proof.
  induction a as [|c a IH]; intro b; [reflexivity|].
  simpl. destruct (N.eqb_spec c NL) as [E|E].
  - rewrite IH. reflexivity.
  - rewrite IH. destruct (split_nl a) as [|l ls] eqn:Ea.
    + exfalso. eapply split_nl_nonempty; eassumption.
    + reflexivity.
Qed.

Lemma split_nl_paragraphs : forall texts t line,
  In t texts -> In line (split_nl t) -> In line (split_nl (join [NL; NL] texts)).
Proof.
  induction texts as [|t0 rest IH]; intros t line Ht Hl; [contradiction|].
  destruct rest as [|x r].
  - destruct Ht as [<-|[]]. exact Hl.
  - change (join [NL; NL] (t0 :: x :: r))
      with (t0 ++ NL :: (NL :: join [NL; NL] (x :: r))).
    rewrite split_nl_app. apply in_or_app.
    destruct Ht as [<-|Ht]; [left; exact Hl|].
    right. right. apply (IH t line Ht Hl).
Qed.

Lemma blank_text_lines : forall s,
  forallb isspace s = true -> Forall (fun l => blank_line l = true) (split_nl s).
Proof.
  induction s as [|c s IH]; simpl; intro H.
  - repeat constructor.
  - apply andb_true_iff in H as [Hc Hs]. specialize (IH Hs).
    destruct (N.eqb_spec c NL) as [E|E].
    + constructor; [reflexivity|exact IH].
    + destruct (split_nl s) as [|l ls]; [repeat constructor|].
      * rewrite blank_line_spec. simpl. rewrite Hc. reflexivity.
      * inversion IH as [|? ? Hl Hls]; subst. constructor; [|exact Hls].
        rewrite blank_line_spec in *. simpl. rewrite Hc. exact Hl.
Qed.

Lemma line_gives_body : forall s line,
  In line (split_nl s) -> blank_line line = false -> forallb isspace s = false.
Proof.
  intros s line Hin Hb. destruct (forallb isspace s) eqn:E; [|reflexivity].
  pose proof (blank_text_lines s E) as F. rewrite Forall_forall in F.
  rewrite (F line Hin) in Hb. discriminate.
Qed.

Lemma clean_block_keeps_line : forall s line,
  In line (split_nl s) -> blank_line line = false ->
  In line (split_nl (clean_block s)).
Proof.
  intros s line Hin Hb.
  destruct (clean_block_normalized s) as [lines [E [Hn [_ [_ [_ [_ Hf]]]]]]].
  assert (Hl : In line lines).
  { assert (Hfl : In line (filter nonblank lines)).
    { rewrite Hf. apply filter_In. split; [exact Hin|].
      unfold nonblank. rewrite Hb. reflexivity. }
    apply filter_In in Hfl. exact (proj1 Hfl). }
  rewrite E. destruct lines as [|h r]; [contradiction|].
  rewrite (@split_nl_join h r Hn). exact Hl.
Qed.

Lemma gather_keeps : forall pm pages st r,
  gather pm pages st = Some r ->
  (forall x, In x (fst (fst st)) -> In x (fst (fst r)))
  /\ (forall n page, In n pages -> getitem pm n = Some page ->
        truthy (strip (full_text page)) = true -> In (full_text page) (fst (fst r))).
Proof.
  intros pm. induction pages as [|m pages IH]; intros st r H; simpl in H.
  - inversion H; subst. split; [auto|]. intros n page [].
  - destruct (getitem pm m) as [d|] eqn:Hd; simpl in H; [|discriminate].
    destruct st as [[texts first] comp].
    destruct (truthy (strip (full_text d))) eqn:T.
    + assert (Hboth : exists f c,
                 gather pm pages (texts ++ [full_text d], f, c) = Some r).
      { destruct (negb (truthy first)); eauto. }
      destruct Hboth as [f [c Hg]]. destruct (IH _ _ Hg) as [K1 K2]. simpl in K1.
      split.
      * intros x Hx. apply K1. apply in_or_app. left. exact Hx.
      * intros n page [<-|Hn] Hp Hb.
        -- rewrite Hd in Hp. inversion Hp; subst page.
           apply K1. apply in_or_app. right. left. reflexivity.
        -- apply (K2 n page Hn Hp Hb).
    + destruct (IH _ _ H) as [K1 K2]. split; [exact K1|].
      intros n page [<-|Hn] Hp Hb.
      * rewrite Hd in Hp. inversion Hp; subst page. rewrite T in Hb. discriminate.
      * apply (K2 n page Hn Hp Hb).
Qed.

Lemma section_texts_keeps : forall pm pages texts n page,
  section_texts pm pages = Some texts ->
  In n pages -> getitem pm n = Some page ->
  truthy (strip (full_text page)) = true -> In (full_text page) texts.
Proof.
  intros pm. induction pages as [|m pages IH]; intros texts n page H Hn Hp Hb;
    [contradiction|].
  simpl in H.
  destruct (getitem pm m) as [d|] eqn:Hd; simpl in H; [|discriminate].
  destruct (section_texts pm pages) as [ts|] eqn:Hs; simpl in H; [|discriminate].
  inversion H; subst texts. clear H.
  destruct Hn as [<-|Hn].
  - rewrite Hd in Hp. inversion Hp; subst page. rewrite Hb. left. reflexivity.
  - specialize (IH ts n page eq_refl Hn Hp Hb).
    destruct (truthy (strip (full_text d))); [right|]; exact IH.
Qed.

Lemma in_concat_pages : forall (products : list Block) n,
  In n (List.concat (map page_numbers products)) ->
  exists b, In b products /\ In n (page_numbers b).
Proof.
  intros products n H. apply in_concat in H as [l [Hl Hn]].
  apply in_map_iff in Hl as [b [<- Hb]]. exists b. auto.
Qed.

(** The resolved title of a title that is not empty is not empty. *)
Lemma resolve_full_title_nonempty : forall lookup title page_text,
  title <> [] -> _resolve_full_title lookup title page_text <> [].
Proof.
  intros lookup title page_text Ht. unfold _resolve_full_title.
  destruct (re_search title_pattern title) as [roi_match|];
    (destruct (_find_english_title_in_text page_text) as [[|c0 e0]|]; cbn -[lookup_title app];
     try exact Ht;
     repeat match goal with
            | |- context [match ?x with _ => _ end] =>
                lazymatch x with
                | lookup_title _ _ => destruct x as [[? ?]|]
                | _ => destruct x eqn:?
                end; cbn -[lookup_title app]
            end;
     try exact Ht; try discriminate;
     try (intro J; apply app_eq_nil in J as [J _]; discriminate);
     try (apply truthy_true; assumption);
     try (subst; discriminate)).
Qed.

Lemma product_text_nonempty : forall lookup title pages pm block,
  title <> [] ->
  _create_product_block lookup title pages pm = Some block -> block <> [].
Proof.
  intros lookup title pages pm block Ht H. unfold _create_product_block in H.
  destruct (gather pm pages ([], [], [])) as [[[texts first] comp]|];
    simpl in H; [|discriminate].
  pose proof (resolve_full_title_nonempty lookup title (join [NL; NL] texts) Ht) as Hr.
  destruct (_resolve_full_title lookup title (join [NL; NL] texts)) as [|c t];
    [contradiction|].
  destruct (truthy comp);
    destruct (truthy (strip (clean_block (join [NL; NL] texts))));
    inversion H; discriminate.
Qed.

Lemma runs_cover : forall (products : list Block),
  Forall (fun b => page_numbers b <> []) products ->
  (length products <= length (List.concat (map page_numbers products)))%nat.
Proof.
  induction 1 as [|b bs Hb _ IH]; simpl; [lia|].
  rewrite length_app. destruct (page_numbers b); [contradiction|]. simpl. lia.
Qed.

(** X6.  The assembler returns no empty block and at most one block per
    page of the page map. *)
Theorem assemble_text_blocks_nonempty : forall pm : PageMap,
  exists blocks,
    assemble_text pm = Some blocks
    /\ Forall (fun block => block <> []) blocks
    /\ (length blocks <= length pm)%nat.
Proof.
  intro pm.
  destruct (assemble_blocks_structure pm)
    as [lookup [sec [products [stext [Hl [Hp [Hs [Hr [Hrd [Ha [Hsec Hb]]]]]]]]]]].
  unfold assemble_text, assemble_by_title_anchors. rewrite Hb. cbn [bind].
  eexists. split; [reflexivity|]. split.
  - rewrite map_app. apply Forall_app. split.
    + destruct (truthy (strip stext)) eqn:T; [|constructor].
      constructor; [|constructor]. simpl. intro E. rewrite E in T. discriminate.
    + apply Forall_forall. intros t Ht. apply in_map_iff in Ht as [b [<- Hin]].
      rewrite Forall_forall in Hr, Hrd.
      destruct (Hr b Hin) as [_ [Hne _]].
      exact (product_text_nonempty _ _ _ _ _ Hne (Hrd b Hin)).
  - rewrite length_map, length_app.
    assert (Hlen : length (sorted (keys pm)) = length pm).
    { rewrite <- (Permutation_length (sorted_perm (keys pm))).
      unfold keys. apply length_map. }
    rewrite <- Hlen, <- Hp, length_app.
    assert (Hruns : (length products
                     <= length (List.concat (map page_numbers products)))%nat).
    { apply runs_cover. eapply Forall_impl; [|exact Hr].
      intros b. apply run_nonempty. }
    assert (Hsecl : (length (if truthy (strip stext)
                             then [mkBlock SectionBlock [] sec stext] else [])
                     <= length sec)%nat).
    { destruct sec as [|n0 sec0].
      - simpl in Hsec. inversion Hsec; subst stext. simpl. lia.
      - destruct (truthy (strip stext)); simpl; lia. }
    lia.
Qed.

(** X7.  No line is lost by the assembly: a line of a page's text that is
    not blank is a line of the text of a block that holds the page, and so
    a line of the final text, the blocks joined by an empty line. *)
Theorem assemble_keeps_lines : forall (pm : PageMap) (n : Z) (page : Page) (line : str),
  getitem pm n = Some page ->
  In line (split_nl (full_text page)) ->
  blank_line line = false ->
  exists blocks b,
    assemble_blocks pm = Some blocks
    /\ In b blocks
    /\ In n (page_numbers b)
    /\ In line (split_nl (text b))
    /\ In line (split_nl (final_text (map text blocks))).
Proof.
  intros pm n page line Hpage Hline Hnb.
  destruct (assemble_blocks_structure pm)
    as [lookup [sec [products [stext [Hl [Hp [Hs [Hr [Hrd [Ha [Hsec Hb]]]]]]]]]]].
  assert (Hbody : truthy (strip (full_text page)) = true).
  { rewrite truthy_strip. rewrite (line_gives_body _ _ Hline Hnb). reflexivity. }
  assert (Hn : In n (sec ++ List.concat (map page_numbers products))).
  { rewrite Hp. apply sorted_In. apply (getitem_Some_In pm n Hpage). }
  assert (Hfound : exists b,
             In b ((if truthy (strip stext)
                    then [mkBlock SectionBlock [] sec stext] else []) ++ products)
             /\ In n (page_numbers b) /\ In line (split_nl (text b))).
  { apply in_app_or in Hn as [Hn|Hn].
    - (* a section page *)
      unfold _create_section_block in Hsec.
      destruct (section_texts pm sec) as [texts|] eqn:Ht; simpl in Hsec; [|discriminate].
      inversion Hsec; subst stext. clear Hsec.
      pose proof (section_texts_keeps pm sec texts n page Ht Hn Hpage Hbody) as Hin.
      pose proof (split_nl_paragraphs texts _ line Hin Hline) as Hc.
      pose proof (clean_block_has_body _ (line_gives_body _ _ Hc Hnb)) as Hhas.
      unfold has_body in Hhas. rewrite Hhas.
      exists (mkBlock SectionBlock [] sec (clean_block (join [NL; NL] texts))).
      split; [left; reflexivity|]. split; [exact Hn|].
      simpl. apply clean_block_keeps_line; assumption.
    - (* a page of a product *)
      apply in_concat_pages in Hn as [b [Hin Hnb']].
      exists b. split; [apply in_or_app; right; exact Hin|]. split; [exact Hnb'|].
      rewrite Forall_forall in Hrd. pose proof (Hrd b Hin) as Hrend.
      unfold rendered, _create_product_block in Hrend.
      destruct (gather pm (page_numbers b) ([], [], [])) as [[[texts first] comp]|] eqn:G;
        simpl in Hrend; [|discriminate].
      destruct (gather_keeps pm _ _ _ G) as [_ K]. simpl in K.
      pose proof (K n page Hnb' Hpage Hbody) as Hint.
      pose proof (split_nl_paragraphs texts _ line Hint Hline) as Hc.
      pose proof (clean_block_has_body _ (line_gives_body _ _ Hc Hnb)) as Hhas.
      unfold has_body in Hhas. rewrite Hhas in Hrend.
      inversion Hrend as [Et]. clear Hrend.
      rewrite split_nl_app. apply in_or_app. right. right.
      apply clean_block_keeps_line; assumption. }
  destruct Hfound as [b [Hin [Hnb' Hlb]]].
  eexists _, b. split; [exact Hb|]. split; [exact Hin|]. split; [exact Hnb'|].
  split; [exact Hlb|].
  unfold final_text. apply (split_nl_paragraphs _ (text b) line); [|exact Hlb].
  apply in_map. exact Hin.
Qed.

End AssemblerKeeps.

Lemma assemble_keeps_lines_witness :
  exists blocks b,
    TextAssembler.assemble_blocks scenario = Some blocks
    /\ In b blocks
    /\ In 2%Z (page_numbers b)
    /\ In (u"pH 5.5") (split_nl (text b))
    /\ In (u"pH 5.5") (split_nl (final_text (map text blocks))).
Proof.
  apply (@assemble_keeps_lines basic_unicode scenario 2%Z
           (mkPage (u"pH 5.5") [] [] []) (u"pH 5.5")).
  - reflexivity.
  - left. reflexivity.
  - reflexivity.
Defined.

(** ** What the cleaner deletes *)

(** [deletes p a b]: the string [a] is [b] with some characters that
    satisfy [p] taken out; the others stay, in their order. *)
Inductive deletes (p : char -> bool) : str -> str -> Prop :=
| deletes_nil : deletes p [] []
| deletes_skip : forall c a b, p c = true -> deletes p a b -> deletes p a (c :: b)
| deletes_keep : forall c a b, deletes p a b -> deletes p (c :: a) (c :: b).

Definition any_char (_ : char) : bool := true.

Section Deletes.
Variable p : char -> bool.

Lemma deletes_refl : forall s, deletes p s s.
Proof. induction s; constructor; assumption. Qed.

Lemma deletes_all : forall w, Forall (fun c => p c = true) w -> deletes p [] w.
Proof. induction 1; constructor; assumption. Qed.

Lemma deletes_app : forall a b c d,
  deletes p a b -> deletes p c d -> deletes p (a ++ c) (b ++ d).
Proof.
  intros a b c d H. induction H; intro K; simpl;
    [exact K | apply deletes_skip | apply deletes_keep]; auto.
Qed.

Lemma deletes_nil_inv : forall a, deletes p a [] -> a = [].
Proof. intros a H. inversion H. reflexivity. Qed.

Lemma deletes_trans : forall a b c, deletes p a b -> deletes p b c -> deletes p a c.
Proof.
  intros a b c Hab Hbc. revert a Hab.
  induction Hbc as [|x b c Hx Hbc IH|x b c Hbc IH]; intros a Hab.
  - exact Hab.
  - apply deletes_skip; auto.
  - inversion Hab; subst.
    + apply deletes_skip; auto.
    + apply deletes_keep; auto.
Qed.

Lemma deletes_filter : forall (f : char -> bool) a b,
  deletes p a b -> deletes p (filter f a) (filter f b).
Proof.
  intros f a b H. induction H as [|c a b Hc H IH|c a b H IH]; simpl.
  - constructor.
  - destruct (f c); [apply deletes_skip|]; assumption.
  - destruct (f c); [apply deletes_keep|]; assumption.
Qed.

Lemma deletes_prefix : forall pre s,
  Forall (fun c => p c = true) pre -> deletes p s (pre ++ s).
Proof.
  intros pre s H. change s with ([] ++ s) at 1.
  apply deletes_app; [apply deletes_all; exact H|apply deletes_refl].
Qed.

End Deletes.

Lemma deletes_weaken : forall (p q : char -> bool) a b,
  (forall c, p c = true -> q c = true) -> deletes p a b -> deletes q a b.
Proof.
  intros p q a b Hpq H.
  induction H as [|c a b Hc H IH|c a b H IH];
    [apply deletes_nil | apply deletes_skip | apply deletes_keep]; auto.
Qed.

Lemma any_char_all : forall w : str, Forall (fun c => any_char c = true) w.
Proof. intro w. apply Forall_forall. reflexivity. Qed.

Lemma deletes_any_l : forall w : str, deletes any_char [] w.
Proof. intro w. apply deletes_all, any_char_all. Qed.

Section Captures.
Context {U : Unicode}.

(** The words of a pattern together with the groups a match of the word
    records: [caps] are the groups before the match, [caps'] after it. *)
Fixpoint parse (ic : bool) (r : re) (w : str) (caps caps' : list (nat * str)) : Prop :=
  match r with
  | Cat r1 r2 =>
      exists w1 w2 cm, w = w1 ++ w2 /\ parse ic r1 w1 caps cm /\ parse ic r2 w2 cm caps'
  | Or r1 r2 => parse ic r1 w caps caps' \/ parse ic r2 w caps caps'
  | Grp n r1 => exists c1, parse ic r1 w caps c1 /\ caps' = (n, w) :: c1
  | _ => lang ic r w /\ caps' = caps
  end.

Lemma run_parse : forall (A : Type) ic ml r prev s caps
                         (k : option char -> str -> list (nat * str) -> option A) a,
  run ic ml r prev s caps k = Some a ->
  exists w s' p' c', s = w ++ s' /\ parse ic r w caps c' /\ k p' s' c' = Some a.
Proof.
  intros A ic ml. induction r as [|x|x|x|x|x|r1 IH1 r2 IH2|r1 IH1 r2 IH2|n r1 IH1| | |];
    intros prev s caps k a H;
    try (destruct (run_sound _ _ _ _ _ _ H) as [w [s' [p' [c' [H1 [H2 H3]]]]]]).
  - simpl in H. exists [], s, prev, caps. simpl. auto.
  - simpl in H. apply one_char_sound in H as [c [s' [H1 [H2 H3]]]].
    exists [c], s', (Some c), caps. subst s. simpl. eauto 6.
  - simpl in H. apply star_greedy_sound in H as [w0 [s0 [p0 [E1 [E2 E3]]]]].
    exists w0, s0, p0, caps. simpl. auto.
  - simpl in H. apply one_char_sound in H as [c [s1 [E1 [E2 E3]]]].
    apply star_greedy_sound in E3 as [w0 [s0 [p0 [E4 [E5 E6]]]]].
    exists (c :: w0), s0, p0, caps. subst s s1. simpl.
    split; [reflexivity|]. split; [|assumption]. split; [|reflexivity].
    split; [discriminate|]. constructor; assumption.
  - simpl in H. apply one_char_sound in H as [c [s1 [E1 [E2 E3]]]].
    apply star_lazy_sound in E3 as [w0 [s0 [p0 [E4 [E5 E6]]]]].
    exists (c :: w0), s0, p0, caps. subst s s1. simpl.
    split; [reflexivity|]. split; [|assumption]. split; [|reflexivity].
    split; [discriminate|]. constructor; assumption.
  - simpl in H. unfold orelse in H.
    destruct (one_char (atom_ok ic x) s (fun p' s' => k p' s' caps)) as [a'|] eqn:E.
    + inversion H; subst a'.
      apply one_char_sound in E as [c [s0 [E1 [E2 E3]]]].
      exists [c], s0, (Some c), caps. subst s. simpl.
      split; [reflexivity|]. split; [|assumption]. split; [|reflexivity].
      right. exists c. auto.
    + exists [], s, prev, caps. simpl. auto.
  - simpl in H. apply IH1 in H as [w1 [s1 [p1 [c1 [E1 [E2 E3]]]]]].
    apply IH2 in E3 as [w2 [s2 [p2 [c2 [E4 [E5 E6]]]]]].
    exists (w1 ++ w2), s2, p2, c2. subst s s1. rewrite app_assoc.
    split; [reflexivity|]. split; [|assumption]. simpl. eauto 8.
  - simpl in H. unfold orelse in H.
    destruct (run ic ml r1 prev s caps k) as [a'|] eqn:E.
    + inversion H; subst a'.
      apply IH1 in E as [w0 [s0 [p0 [c0 [E1 [E2 E3]]]]]].
      exists w0, s0, p0, c0. simpl. auto.
    + apply IH2 in H as [w0 [s0 [p0 [c0 [E1 [E2 E3]]]]]].
      exists w0, s0, p0, c0. simpl. auto.
  - simpl in H. apply IH1 in H as [w0 [s0 [p0 [c0 [E1 [E2 E3]]]]]].
    exists w0, s0, p0, ((n, w0) :: c0). subst s.
    rewrite firstn_consumed in E3. simpl. eauto.
  - simpl in H. destruct (at_bol ml prev); [|discriminate].
    exists [], s, prev, caps. simpl. auto.
  - simpl in H. destruct (at_eol ml s); [|discriminate].
    exists [], s, prev, caps. simpl. auto.
  - simpl in H. destruct (at_wb prev s); [|discriminate].
    exists [], s, prev, caps. simpl. auto.
Qed.

(** A match consumes a prefix of the text at the cursor; its groups are
    those of a parse of that prefix. *)
Lemma match_here_parse : forall rx prev s m,
  match_here rx prev s = Some m ->
  exists s', s = group0 m ++ s'
             /\ parse (IGNORECASE rx) (body rx) (group0 m) [] (captures m).
Proof.
  intros rx prev s m H. unfold match_here in H.
  apply run_parse in H as [w [s' [p' [c' [H1 [H2 H3]]]]]].
  subst s. rewrite firstn_consumed in H3. inversion H3; subst m. simpl.
  exists s'. auto.
Qed.

Section Substitution.
Variable p : char -> bool.
Variable rx : regex.
Variable repl : mobj -> str.
Hypothesis repl_deletes : forall prev s m,
  match_here rx prev s = Some m -> deletes p (repl m) (group0 m).

Lemma skipn_consumed : forall (w r : str), skipn (length w) (w ++ r) = r.
Proof. induction w; intro r; simpl; auto. Qed.

Lemma sub_go_deletes : forall s skip prev,
  deletes p (sub_go rx repl skip prev s) (skipn skip s).
Proof.
  induction s as [|c s IH]; intros skip prev.
  - destruct skip; simpl; [|constructor].
    destruct (match_here rx prev []) as [m|] eqn:M; [|constructor].
    pose proof (repl_deletes _ _ _ M) as D.
    apply match_here_parse in M as [s' [E _]].
    symmetry in E. apply app_eq_nil in E as [E _]. rewrite E in D. exact D.
  - destruct skip as [|k]; [|simpl; apply IH].
    cbn [sub_go skipn].
    destruct (match_here rx prev (c :: s)) as [m|] eqn:M;
      [|apply deletes_keep; apply (IH 0%nat)].
    pose proof (repl_deletes _ _ _ M) as D.
    apply match_here_parse in M as [s' [E _]].
    destruct (group0 m) as [|x w] eqn:G; simpl.
    + apply deletes_nil_inv in D. rewrite D. simpl.
      apply deletes_keep. apply (IH 0%nat).
    + simpl in E. inversion E; subst x s.
      change (c :: w ++ s') with ((c :: w) ++ s').
      apply deletes_app; [exact D|].
      pose proof (IH (length w) (Some c)) as K.
      rewrite skipn_consumed in K. exact K.
Qed.

Lemma re_sub_deletes : forall s, deletes p (re_sub rx repl s) s.
Proof. intro s. unfold re_sub. apply (sub_go_deletes s 0%nat None). Qed.

End Substitution.

Lemma re_sub_erase_deletes : forall rx s,
  deletes any_char (re_sub rx TextCleaner.erase s) s.
Proof.
  intros rx s. apply re_sub_deletes. intros prev s0 m _. apply deletes_any_l.
Qed.

End Captures.

Section CleanerDeletes.
Context {U : Unicode}.
Import TextCleaner.

Definition hyphen_or_space (c : char) : bool := N.eqb c HYPHEN || isspace c.

Lemma hyphen_is_deleted : forall ic c,
  atom_ok ic (Lit (chr "-")) c = true -> hyphen_or_space c = true.
Proof.
  intros ic c H. apply hyphen_atom in H. subst c. reflexivity.
Qed.

Lemma spaces_are_deleted : forall ic w,
  Forall (fun c => atom_ok ic ws c = true) w ->
  Forall (fun c => hyphen_or_space c = true) w.
Proof.
  intros ic w H. eapply Forall_impl; [|exact H].
  intros c Hc. apply space_atom in Hc. unfold hyphen_or_space.
  rewrite Hc. apply orb_true_r.
Qed.

(** The two shapes of the patterns of [fix_hyphenation]: what the
    replacement [\1\2] leaves out of a match is the hyphen and the
    whitespace between the two groups. *)
Lemma wrap_space_groups : forall ic r1 r2 w caps,
  (forall w0 c c', parse ic r1 w0 c c' -> c' = c) ->
  (forall w0 c c', parse ic r2 w0 c c' -> c' = c) ->
  parse ic (cat [Grp 1 r1; ch "-"; Plus ws; Grp 2 r2]) w [] caps ->
  deletes hyphen_or_space (group_in caps 1 ++ group_in caps 2) w.
Proof.
  intros ic r1 r2 w caps G1 G2 H.
  destruct H as [w1 [w2 [cm [E1 [[c1 [P1 Ec1]] H]]]]].
  destruct H as [w3 [w4 [cm2 [E2 [[[x [Ex Hx]] Ecm2] H]]]]].
  destruct H as [w5 [w6 [cm3 [E3 [[[_ Hs] Ecm3] [c2 [P2 Ecaps]]]]]]].
  apply G1 in P1. apply G2 in P2. subst. simpl.
  apply deletes_app; [apply deletes_refl|].
  change (x :: w5 ++ w6) with ((x :: w5) ++ w6).
  apply deletes_prefix. constructor.
  - apply (hyphen_is_deleted ic). assumption.
  - apply (spaces_are_deleted ic). assumption.
Qed.

Lemma wrap_newline_groups : forall ic r1 r2 w caps,
  (forall w0 c c', parse ic r1 w0 c c' -> c' = c) ->
  (forall w0 c c', parse ic r2 w0 c c' -> c' = c) ->
  parse ic (cat [Grp 1 r1; ch "-"; One (Lit NL); Star ws; Grp 2 r2]) w [] caps ->
  deletes hyphen_or_space (group_in caps 1 ++ group_in caps 2) w.
Proof.
  intros ic r1 r2 w caps G1 G2 H.
  destruct H as [w1 [w2 [cm [E1 [[c1 [P1 Ec1]] H]]]]].
  destruct H as [w3 [w4 [cm2 [E2 [[[x [Ex Hx]] Ecm2] H]]]]].
  destruct H as [w5 [w6 [cm3 [E3 [[[y [Ey Hy]] Ecm3] H]]]]].
  destruct H as [w7 [w8 [cm4 [E4 [[Hs Ecm4] [c2 [P2 Ecaps]]]]]]].
  apply G1 in P1. apply G2 in P2. apply newline_atom in Hy. subst. simpl.
  apply deletes_app; [apply deletes_refl|].
  change (x :: NL :: w7 ++ w8) with ((x :: NL :: w7) ++ w8).
  apply deletes_prefix. constructor; [|constructor].
  - apply (hyphen_is_deleted ic). assumption.
  - reflexivity.
  - apply (spaces_are_deleted ic). assumption.
Qed.

Lemma plus_no_group : forall ic a w0 (c c' : list (nat * str)),
  parse ic (Plus a) w0 c c' -> c' = c.
Proof. intros ic a w0 c c' [_ H]. exact H. Qed.

Lemma one_no_group : forall ic a w0 (c c' : list (nat * str)),
  parse ic (One a) w0 c c' -> c' = c.
Proof. intros ic a w0 c c' [_ H]. exact H. Qed.

Lemma fix_hyphenation_deletes : forall text : str,
  deletes hyphen_or_space (fix_hyphenation text) text.
Proof.
  intro text. unfold fix_hyphenation.
  eapply deletes_trans; [|eapply deletes_trans; [|eapply deletes_trans]].
  - apply re_sub_deletes. intros prev s m M.
    apply match_here_parse in M as [s' [_ P]].
    apply (wrap_newline_groups true _ _ _ _ (one_no_group true ru_en_letter)
             (one_no_group true ru_en_letter)) in P.
    exact P.
  - apply re_sub_deletes. intros prev s m M.
    apply match_here_parse in M as [s' [_ P]].
    apply (wrap_space_groups true _ _ _ _ (one_no_group true ru_en_letter)
             (one_no_group true ru_en_letter)) in P.
    exact P.
  - apply re_sub_deletes. intros prev s m M.
    apply match_here_parse in M as [s' [_ P]].
    apply (wrap_newline_groups false _ _ _ _ (plus_no_group false wd)
             (plus_no_group false wd)) in P.
    exact P.
  - apply re_sub_deletes. intros prev s m M.
    apply match_here_parse in M as [s' [_ P]].
    apply (wrap_space_groups false _ _ _ _ (plus_no_group false wd)
             (plus_no_group false wd)) in P.
    exact P.
Qed.

Lemma fix_hyphenation_deletes_any : forall text : str,
  deletes any_char (fix_hyphenation text) text.
Proof.
  intro text. eapply deletes_weaken; [|apply fix_hyphenation_deletes]. reflexivity.
Qed.

(** X8.  [fix_hyphenation] takes out hyphens and whitespace and nothing
    else: every other character of the text stays, in its place in the
    order. *)
Theorem fix_hyphenation_deletes_hyphens_and_spaces : forall text : str,
  deletes hyphen_or_space (fix_hyphenation text) text.
Proof. exact fix_hyphenation_deletes. Qed.

(** A pattern that can only match at the start of the string. *)
Definition anchored (rx : regex) : Prop :=
  forall c s, match_here rx (Some c) s = None.

Lemma anchored_rest : forall rx repl,
  anchored rx -> forall s k c, sub_go rx repl k (Some c) s = skipn k s.
Proof.
  intros rx repl H. induction s as [|c' s IH]; intros k c.
  - destruct k; simpl; [rewrite H|]; reflexivity.
  - destruct k as [|k]; simpl; [|apply IH].
    rewrite H. rewrite (IH 0%nat). reflexivity.
Qed.

Lemma anchored_erase_suffix : forall rx s,
  anchored rx -> exists pre, s = pre ++ re_sub rx erase s.
Proof.
  intros rx s H. unfold re_sub. destruct s as [|c s]; simpl.
  - exists []. destruct (match_here rx None []); reflexivity.
  - destruct (match_here rx None (c :: s)) as [m|].
    + destruct (length (group0 m)) as [|k]; simpl.
      * exists []. rewrite (anchored_rest rx erase H s 0%nat). reflexivity.
      * exists (c :: firstn k s). rewrite (anchored_rest rx erase H s k).
        simpl. rewrite firstn_skipn. reflexivity.
    + exists []. rewrite (anchored_rest rx erase H s 0%nat). reflexivity.
Qed.

Lemma lstrip_by_suffix : forall f s, exists pre, s = pre ++ lstrip_by f s.
Proof.
  intros f. induction s as [|c s [pre IH]]; simpl; [exists []; reflexivity|].
  destruct (f c); [|exists []; reflexivity].
  exists (c :: pre). simpl. f_equal. exact IH.
Qed.

(** What [strip_marker] removes from a line is a prefix of the line. *)
Lemma strip_marker_suffix : forall line,
  exists marker, line = marker ++ strip_marker line.
Proof.
  intro line. unfold strip_marker.
  match goal with
  | |- exists marker, _ = marker ++ lstrip_by ?f
         (re_sub ?r5 erase (re_sub ?r4 erase (re_sub ?r3 erase
            (re_sub ?r2 erase (re_sub ?r1 erase line))))) =>
      destruct (anchored_erase_suffix r1 line) as [p1 E1]; [intros c s; reflexivity|];
      set (l1 := re_sub r1 erase line) in *;
      destruct (anchored_erase_suffix r2 l1) as [p2 E2]; [intros c s; reflexivity|];
      set (l2 := re_sub r2 erase l1) in *;
      destruct (anchored_erase_suffix r3 l2) as [p3 E3]; [intros c s; reflexivity|];
      set (l3 := re_sub r3 erase l2) in *;
      destruct (anchored_erase_suffix r4 l3) as [p4 E4]; [intros c s; reflexivity|];
      set (l4 := re_sub r4 erase l3) in *;
      destruct (anchored_erase_suffix r5 l4) as [p5 E5]; [intros c s; reflexivity|];
      set (l5 := re_sub r5 erase l4) in *;
      destruct (lstrip_by_suffix f l5) as [p6 E6]
  end.
  exists (p1 ++ p2 ++ p3 ++ p4 ++ p5 ++ p6).
  rewrite <- !app_assoc. rewrite <- E6, <- E5, <- E4, <- E3, <- E2. exact E1.
Qed.

Lemma no_nl_suffix : forall pre s, no_nl (pre ++ s) -> no_nl s.
Proof. intros pre s H. apply Forall_app in H. exact (proj2 H). Qed.

(** X9.  [remove_list_markers] works line by line: the result has the
    lines of the input, each without a prefix of it (the marker and the
    blanks around it); nothing is taken from the middle or the end of a
    line, and no line is added or dropped. *)
Theorem remove_list_markers_cuts_prefixes : forall text : str,
  split_nl (remove_list_markers text) = map strip_marker (split_nl text)
  /\ Forall2 (fun cleaned line => exists marker, line = marker ++ cleaned)
             (split_nl (remove_list_markers text)) (split_nl text).
Proof.
  intro text.
  assert (E : split_nl (remove_list_markers text) = map strip_marker (split_nl text)).
  { unfold remove_list_markers.
    pose proof (split_nl_no_nl text) as Hn.
    destruct (split_nl text) as [|h r] eqn:Es;
      [exfalso; eapply split_nl_nonempty; eassumption|].
    cbn [map]. apply split_nl_join.
    change (strip_marker h :: map strip_marker r) with (map strip_marker (h :: r)).
    apply Forall_forall. intros l Hl. apply in_map_iff in Hl as [l0 [<- Hl0]].
    rewrite Forall_forall in Hn. specialize (Hn l0 Hl0).
    destruct (strip_marker_suffix l0) as [marker Em]. rewrite Em in Hn.
    apply no_nl_suffix in Hn. exact Hn. }
  split; [exact E|]. rewrite E. clear E.
  induction (split_nl text) as [|l ls IH]; simpl; constructor; auto.
  apply strip_marker_suffix.
Qed.

Lemma join_more : forall (sep x y : str) (r : list str),
  join sep (x :: y :: r) = x ++ sep ++ join sep (y :: r).
Proof. reflexivity. Qed.

Lemma join_split : forall s, join [NL] (split_nl s) = s.
Proof.
  induction s as [|c s IH]; [reflexivity|].
  simpl split_nl. destruct (N.eqb_spec c NL) as [E|E].
  - subst c. destruct (split_nl s) as [|l ls] eqn:Es;
      [exfalso; eapply split_nl_nonempty; eassumption|].
    rewrite join_more, IH. reflexivity.
  - destruct (split_nl s) as [|l ls] eqn:Es;
      [exfalso; eapply split_nl_nonempty; eassumption|].
    destruct ls as [|l2 ls].
    + simpl in *. rewrite IH. reflexivity.
    + rewrite join_more. rewrite join_more in IH. rewrite <- IH. reflexivity.
Qed.

Lemma join_deletes : forall p (sep : str) cleaned lines,
  Forall2 (deletes p) cleaned lines ->
  deletes p (join sep cleaned) (join sep lines).
Proof.
  intros p sep cleaned lines H.
  induction H as [|a b ls' ls Hab Hrest IH]; [constructor|].
  destruct Hrest as [|a2 b2 ls2' ls2 Hab2 Hrest2].
  - exact Hab.
  - rewrite !join_more. apply deletes_app; [exact Hab|].
    apply deletes_app; [apply deletes_refl|exact IH].
Qed.

Lemma join_filter_deletes : forall (f : str -> bool) (sep : str) lines,
  deletes any_char (join sep (filter f lines)) (join sep lines).
Proof.
  intros f sep. induction lines as [|l ls IH]; [constructor|].
  assert (Hdrop : deletes any_char (join sep (filter f ls)) (join sep (l :: ls))).
  { destruct ls as [|l2 ls2].
    - simpl. apply deletes_any_l.
    - rewrite join_more. rewrite app_assoc.
      eapply deletes_trans; [exact IH|].
      apply deletes_prefix. apply any_char_all. }
  simpl filter. destruct (f l); [|exact Hdrop].
  destruct ls as [|l2 ls2]; [apply deletes_refl|].
  rewrite join_more.
  destruct (filter f (l2 :: ls2)) as [|k ks] eqn:Ef.
  - simpl. rewrite <- (app_nil_r l) at 1.
    apply deletes_app; [apply deletes_refl|apply deletes_any_l].
  - rewrite join_more. apply deletes_app; [apply deletes_refl|].
    apply deletes_app; [apply deletes_refl|exact IH].
Qed.

Lemma remove_list_markers_deletes : forall text,
  deletes any_char (remove_list_markers text) text.
Proof.
  intro text. unfold remove_list_markers.
  rewrite <- (join_split text) at 2. apply join_deletes.
  induction (split_nl text) as [|l ls IH]; simpl; constructor; auto.
  destruct (strip_marker_suffix l) as [marker E]. rewrite E at 2.
  apply deletes_prefix. apply any_char_all.
Qed.

Lemma remove_page_numbers_deletes : forall text,
  deletes any_char (remove_page_numbers text) text.
Proof.
  intro text. unfold remove_page_numbers.
  rewrite <- (join_split text) at 2. apply join_filter_deletes.
Qed.

Lemma before_merge_deletes : forall text,
  deletes any_char
    (re_sub (icase (Cat decorative (Star ws))) erase
       (re_sub (icase decorative) erase
          (remove_page_numbers (remove_list_markers (fix_hyphenation text)))))
    text.
Proof.
  intro text.
  eapply deletes_trans; [apply re_sub_erase_deletes|].
  eapply deletes_trans; [apply re_sub_erase_deletes|].
  eapply deletes_trans; [apply remove_page_numbers_deletes|].
  eapply deletes_trans; [apply remove_list_markers_deletes|].
  apply fix_hyphenation_deletes_any.
Qed.

(** X10.  The cleaner writes no text of its own: leaving whitespace
    aside, the cleaned text of a page is the raw text with characters
    taken out, the remaining ones in their order; this holds for every
    page of the map that [clean_text] returns. *)
Theorem clean_text_only_deletes : forall page_data : PageMap,
  (forall text : str, deletes any_char (ink (clean_full_text text)) (ink text))
  /\ Forall2 (fun cleaned raw =>
                fst cleaned = fst raw
                /\ deletes any_char (ink (full_text (snd cleaned)))
                                    (ink (full_text (snd raw))))
             (clean_text page_data) page_data.
Proof.
  intro page_data.
  assert (H : forall text : str,
             deletes any_char (ink (clean_full_text text)) (ink text)).
  { intro text. unfold clean_full_text. rewrite ink_merge_lines.
    apply deletes_filter. apply before_merge_deletes. }
  split; [exact H|].
  induction page_data as [|[n d] pm IH]; simpl; constructor; auto.
  simpl. split; [reflexivity|apply H].
Qed.

End CleanerDeletes.
